(** * pyparty.tools.manager: the particle manager and its set operations

    A shallow embedding of [pyparty/tools/manager.py] (Python 2).  A
    [ParticleManager] object owns a Python list, [plist], which the methods
    mutate in place ([append], [insert], [del], slice assignment).  Lists
    are therefore kept in a store indexed by locations, and a manager value
    is a reference to its list together with its [fastnames] flag.  Every
    method is a computation in a state-and-exception monad over that
    store: an exception leaves the store as it was when it was raised. *)

From Stdlib Require OrderedTypeEx.
From stdpp Require Import base option strings list gmap pretty.
From stdpp Require Import sorting.

Local Open Scope string_scope.
Local Open Scope Z_scope.
Local Open Scope list_scope.

(** ** Values of the object model *)

(** Attribute values read off particles (used as sort keys). *)
Inductive pyval :=
  | VInt (z : Z)
  | VStr (s : string).

Global Instance pyval_eq_dec : EqDecision pyval.
Proof. solve_decision. Defined.

(** Keyword arguments handed to a particle class. *)
Definition traitargs : Type := list (string * pyval).

(** Modelled from the spec: [pyparty.shape_models.abstract_shape.Particle]
    is not under src/.  The particle capability contract of the spec gives
    a particle a read-only type tag and arbitrary named attributes. *)
Record Particle := mkParticle {
  ptype : string;
  attrs : traitargs
}.

Global Instance Particle_eq_dec : EqDecision Particle.
Proof. solve_decision. Defined.

(** Modelled from the spec: [pyparty.trait_types.metaparticle.MetaParticle]
    is not under src/.  The spec's Named Entry pairs a name, an optional
    display colour and the particle it owns; [None] stands for the colour
    the class picks when the constructor gets none. *)
Record MetaParticle := mkMeta {
  name : string;
  color : option pyval;
  particle : Particle
}.

Global Instance MetaParticle_eq_dec : EqDecision MetaParticle.
Proof. solve_decision. Defined.

(** Modelled from the spec: [pyparty.config.NAMESEP] is not under src/.
    The generated names of the spec ([circle_0], [dimer_3]) fix it. *)
Definition NAMESEP : string := "_".

(** Exceptions the module raises, with the arguments their messages are
    formatted from. *)
Inductive exn :=
  | ManagerError_duplicates (n : nat)
      (* "%s Duplicate particle names found." % len(shared) *)
  | ManagerError_named (idx : nat) (nm : string)
      (* 'particle %s is already named "%s"' % (self._namemap[name], name) *)
  | ManagerError_index (received : string)
      (* "Index must be of type int, str or MetaParticle received %s" *)
  | ManagerError_setitem
  | KeyErrorManager (tag : string)
  | KeyError (key : string)
  | IndexError
  | ValueError
  | AttributeError (attr : string)
  | TraitError.

Global Instance exn_eq_dec : EqDecision exn.
Proof. solve_decision. Defined.

(** ** Python lists *)

Section pylist.
Context {A : Type}.

(** [xs[i]] for an [int]: a negative index counts from the end. *)
Definition py_norm (n : nat) (i : Z) : option nat :=
  let j := if bool_decide (i < 0) then i + Z.of_nat n else i in
  if bool_decide (0 ≤ j < Z.of_nat n) then Some (Z.to_nat j) else None.

Definition py_index (xs : list A) (i : Z) : option A :=
  k ← py_norm (length xs) i; xs !! k.

(** [xs.insert(i, x)]: the index is clamped to the list. *)
Definition py_insert_pos (n : nat) (i : Z) : nat :=
  let j := if bool_decide (i < 0) then i + Z.of_nat n else i in
  if bool_decide (j < 0) then 0%nat
  else if bool_decide (Z.of_nat n < j) then n
  else Z.to_nat j.

Definition py_insert (i : Z) (x : A) (xs : list A) : list A :=
  let k := py_insert_pos (length xs) i in
  take k xs ++ x :: drop k xs.

(** [enumerate(xs)] *)
Definition enumerate (xs : list A) : list (nat * A) :=
  imap (λ i x, (i, x)) xs.
End pylist.

(** ** The store and the monad of methods *)

(** A location names one Python list object. *)
Definition loc : Type := positive.

(** The store maps each allocated list object to its current contents. *)
Abbreviation store := (gmap loc (list MetaParticle)).

(** [class ParticleManager(HasTraits)]: a reference to the [plist] list
    object and the [fastnames] attribute set by [__init__]. *)
Record ParticleManager := mkManager {
  plist : loc;
  fastnames : bool
}.

Global Instance ParticleManager_eq_dec : EqDecision ParticleManager.
Proof. solve_decision. Defined.

(** A method run: the store it leaves and the exception or the value. *)
Definition M (A : Type) : Type := store → store * (exn + A).

Global Instance M_ret : MRet M := λ A x σ, (σ, inr x).
Global Instance M_bind : MBind M := λ A B f m σ,
  match m σ with
  | (σ', inl e) => (σ', inl e)
  | (σ', inr x) => f x σ'
  end.

Definition raise {A} (e : exn) : M A := λ σ, (σ, inl e).

(** Lifts a pure, fallible computation. *)
Definition lift {A} (r : exn + A) : M A := λ σ, (σ, r).

(** The current contents of a list object. *)
Definition read (l : loc) : M (list MetaParticle) := λ σ, (σ, inr (σ !!! l)).

(** In-place update of a list object ([xs[:] = ...], [append], ...). *)
Definition write (l : loc) (xs : list MetaParticle) : M unit :=
  λ σ, (<[l := xs]> σ, inr tt).

(** A new list object, at a location that names no list of the store. *)
Definition alloc (xs : list MetaParticle) : M loc :=
  λ σ, let l := fresh (dom σ) in (<[l := xs]> σ, inr l).

(** [ParticleManager(plist=..., fastnames=...)]: the constructor stores a
    list of its own; [fastnames] defaults to [False]. *)
Definition ParticleManager_init (xs : list MetaParticle) (fast : bool)
  : M ParticleManager :=
  l ← alloc xs; mret (mkManager l fast).

(** [copy.copy(p)]: a new manager object with the state of the original.
    A [HasTraits] object restores its state by assigning each trait, and
    the [List] trait [plist] stores a list of its own on assignment, as
    it does for the constructor: the copy holds the same entries in a
    new list object. *)
Definition copy_copy (p : ParticleManager) : M ParticleManager :=
  xs ← read (plist p);
  l ← alloc xs;
  mret (mkManager l (fastnames p)).

(** ** Read-only views *)

(** [__len__] *)
Definition __len__ (self : ParticleManager) : M nat :=
  xs ← read (plist self); mret (length xs).

(** [__iter__]: the entries in list order. *)
Definition __iter__ (self : ParticleManager) : M (list MetaParticle) :=
  read (plist self).

(** The [names] property. *)
Definition names_of (xs : list MetaParticle) : list string := name <$> xs.

Definition names (self : ParticleManager) : M (list string) :=
  xs ← read (plist self); mret (names_of xs).

(** [_get__namemap]: [dict((pobj.name, idx) for idx, pobj in
    enumerate(self.plist))]; a later entry of the same name replaces an
    earlier one. *)
Definition namemap_of (xs : list MetaParticle) : gmap string nat :=
  foldl (λ m ip, <[name ip.2 := ip.1]> m) ∅ (enumerate xs).

Definition _namemap (self : ParticleManager) : M (gmap string nat) :=
  xs ← read (plist self); mret (namemap_of xs).

(** The [ptypes] property, [tuple(set(p.ptype for p in self.plist))]: the
    distinct type tags (the order of a Python set is not relied upon). *)
Definition ptypes_of (xs : list MetaParticle) : list string :=
  remove_dups ((λ p, ptype (particle p)) <$> xs).

(** The [ptype_count] property:
    [dict((typ, ptypes.count(typ)) for typ in self.ptypes)]. *)
Definition count_of (typ : string) (tys : list string) : nat :=
  length (filter (λ t, t = typ) tys).

Definition ptype_count_of (xs : list MetaParticle) : gmap string nat :=
  let tys := (λ p, ptype (particle p)) <$> xs in
  list_to_map ((λ typ, (typ, count_of typ tys)) <$> ptypes_of xs).

Definition ptype_count (self : ParticleManager) : M (gmap string nat) :=
  xs ← read (plist self); mret (ptype_count_of xs).

(** ** Adding particles *)

(** The first argument of [add]: a type name (a [basestring]) with the
    arguments for its class, or a particle instance. *)
Inductive particle_arg :=
  | ByType (tag : string) (kw : traitargs)
  | ByInstance (p : Particle).

Section add.
(** [pyparty.shape_models.api.ALLTYPES], the registry of particle
    classes by type name, is not under src/: it is a parameter. *)
Context (ALLTYPES : gmap string (traitargs → Particle)).

(** [_make_particle] *)
Definition _make_particle (tag : string) (kw : traitargs) : exn + Particle :=
  match ALLTYPES !! tag with
  | Some pclass => inr (pclass kw)
  | None => inl (KeyErrorManager tag)
  end.

(** [if isinstance(particle, basestring): particle = self._make_particle(...)] *)
Definition resolve_particle (arg : particle_arg) : exn + Particle :=
  match arg with
  | ByType tag kw => _make_particle tag kw
  | ByInstance p => inr p
  end.

(** [not idx]: [None] and [0] are both false. *)
Definition idx_falsy (idx : option Z) : bool :=
  match idx with
  | None => true
  | Some i => bool_decide (i = 0)
  end.

(** [if color:] an absent, zero or empty colour is false. *)
Definition color_given (col : option pyval) : option pyval :=
  match col with
  | Some (VInt 0) | Some (VStr "") | None => None
  | Some c => Some c
  end.

(** The name [add] generates when it gets none. *)
Definition auto_name (fast : bool) (xs : list MetaParticle)
    (p : Particle) (idx : Z) : string :=
  if fast then ptype p +:+ NAMESEP +:+ pretty idx
  else
    let pcount := default 0%nat (ptype_count_of xs !! ptype p) in
    ptype p +:+ NAMESEP +:+ pretty pcount.

(** [add(self, particle, name='', idx=None, color=None, ...)] *)
Definition add (self : ParticleManager) (arg : particle_arg)
    (nm : string) (idx : option Z) (col : option pyval) : M unit :=
  p ← lift (resolve_particle arg);
  n ← __len__ self;
  let idx := if idx_falsy idx then Z.of_nat n else default 0 idx in
  xs ← read (plist self);
  let nm := if bool_decide (nm = "") then auto_name (fastnames self) xs p idx
            else nm in
  nmap ← _namemap self;
  match nmap !! nm with
  | Some k => raise (ManagerError_named k nm)
  | None =>
      let meta := mkMeta nm (color_given col) p in
      if bool_decide (idx = Z.of_nat n)
      then write (plist self) (xs ++ [meta])
      else write (plist self) (py_insert idx meta xs)
  end.
End add.

(** ** Index keys *)

(** An element of a [numpy] array used as a mask. *)
Inductive npval :=
  | NBool (b : bool)
  | NInt (z : Z).

(** [a.astype('bool')] *)
Definition astype_bool (a : list npval) : list bool :=
  (λ v, match v with NBool b => b | NInt z => bool_decide (z ≠ 0) end) <$> a.

(** A key without [__iter__] (in Python 2 a string has none), also the
    elements of an iterable key.  [True] and [False] are kept apart from
    the integers: the specification reads a sequence of them as a mask. *)
Inductive atom :=
  | AInt (i : Z)                          (* int *)
  | ABool (b : bool)                      (* bool, a subclass of int *)
  | ASlice (start stop step : option Z)   (* slice(start, stop, step) *)
  | AStr (s : string)
  | AMeta (m : MetaParticle)
  | AOther (tyname : string).             (* an object of any other type *)

(** The argument of [__getitem__] and [__delitem__]. *)
Inductive pykey :=
  | KAtom (a : atom)
  | KArray (a : list npval)               (* np.ndarray *)
  | KIter (ks : list atom).               (* any other iterable *)

(** What [_unmask_index] returns: an [int] or a [slice]. *)
Inductive index :=
  | IInt (i : Z)
  | ISlice (start stop step : option Z).

Global Instance index_eq_dec : EqDecision index.
Proof. solve_decision. Defined.

(** Pure, fallible steps: exception or value. *)
Abbreviation result := (sum exn).

Global Instance result_ret : MRet result := λ A x, inr x.
Global Instance result_bind : MBind result := λ A B f r,
  match r with
  | inl e => inl e
  | inr x => f x
  end.

(** [d[k]] on a dict keyed by names. *)
Definition dict_get (d : gmap string nat) (k : string) : result nat :=
  match d !! k with
  | Some v => inr v
  | None => inl (KeyError k)
  end.

(** [True] and [False] as the integers they are: as a subscript and in
    a comparison with an integer they stand for [1] and [0]. *)
Definition int_of_bool (b : bool) : Z := if b then 1 else 0.

(** [_unmask_index]; [isinstance(idx, int)] holds of a [bool] too. *)
Definition _unmask_index (nmap : gmap string nat) (idx : atom) : result index :=
  match idx with
  | AInt i => inr (IInt i)
  | ABool b => inr (IInt (int_of_bool b))
  | ASlice a b c => inr (ISlice a b c)
  | AStr s => k ← dict_get nmap s; mret (IInt (Z.of_nat k))
  | AMeta m => k ← dict_get nmap (name m); mret (IInt (Z.of_nat k))
  | AOther t => inl (ManagerError_index t)
  end.

(** The positions [slice(start, stop, step)] selects in a list of length
    [n], in the order the slice visits them. *)
Definition slice_bound (n : Z) (step : Z) (dflt : Z) (b : option Z) : Z :=
  match b with
  | None => dflt
  | Some b =>
      let b := if bool_decide (b < 0) then b + n else b in
      if bool_decide (b < 0) then (if bool_decide (step < 0) then -1 else 0)
      else if bool_decide (n ≤ b) then (if bool_decide (step < 0) then n - 1 else n)
      else b
  end.

Definition slice_indices (n : nat) (start stop step : option Z)
  : result (list nat) :=
  let step := default 1 step in
  let n := Z.of_nat n in
  if bool_decide (step = 0) then inl ValueError
  else
    let start := slice_bound n step (if bool_decide (step < 0) then n - 1 else 0) start in
    let stop := slice_bound n step (if bool_decide (step < 0) then -1 else n) stop in
    let len :=
      if bool_decide (step < 0)
      then (if bool_decide (stop < start) then (start - stop - 1) `div` (- step) + 1 else 0)
      else (if bool_decide (start < stop) then (stop - start - 1) `div` step + 1 else 0) in
    inr ((λ k, Z.to_nat (start + k * step)) <$> seqZ 0 len).

(** [xs[i]] raising [IndexError] *)
Definition list_getitem {A} (xs : list A) (i : Z) : result A :=
  match py_index xs i with
  | Some x => inr x
  | None => inl IndexError
  end.

(** What [xs[index]] evaluates to: one element, or a list for a slice. *)
Inductive item :=
  | One (m : MetaParticle)
  | Many (ms : list MetaParticle).

Definition list_subscript (xs : list MetaParticle) (ix : index) : result item :=
  match ix with
  | IInt i => m ← list_getitem xs i; mret (One m)
  | ISlice a b c =>
      ks ← slice_indices (length xs) a b c;
      mret (Many (omap (λ k, xs !! k) ks))
  end.

(** [del xs[index]] *)
Definition list_delitem (xs : list MetaParticle) (ix : index)
  : result (list MetaParticle) :=
  match ix with
  | IInt i =>
      match py_norm (length xs) i with
      | Some k => inr (delete k xs)
      | None => inl IndexError
      end
  | ISlice a b c =>
      ks ← slice_indices (length xs) a b c;
      mret ((snd <$> filter (λ ix, ix.1 ∉ ks) (enumerate xs)))
  end.

(** ** Reading and deleting through an index *)

(** [ParticleManager(plist=plout, ...)] is handed a list of what the
    subscripts gave; the trait [List(Instance(MetaParticle))] refuses an
    element that is itself a list. *)
Definition as_entries (items : list item) : result (list MetaParticle) :=
  mapM (λ it, match it with One m => inr m | Many _ => inl TraitError end) items.

(** The list [__getitem__] builds from the current entries [xs]. *)
Definition getitem_plout (xs : list MetaParticle) (keyslice : pykey)
  : result (list MetaParticle) :=
  let nmap := namemap_of xs in
  match keyslice with
  | KArray a =>
      (* [self.plist[idx] for idx, exists in enumerate(boolout) if exists] *)
      mapM (λ ie, list_getitem xs (Z.of_nat ie.1))
           (filter (λ ie, ie.2 = true) (enumerate (astype_bool a)))
  | KIter ks =>
      (* [self.plist[self._unmask_index(idx)] for idx in keyslice] *)
      items ← mapM (λ idx, ix ← _unmask_index nmap idx; list_subscript xs ix) ks;
      as_entries items
  | KAtom a =>
      ix ← _unmask_index nmap a;
      plout ← list_subscript xs ix;
      (* if not hasattr(plout, '__iter__'): plout = [plout] *)
      mret (match plout with One m => [m] | Many ms => ms end)
  end.

(** [__getitem__] *)
Definition __getitem__ (self : ParticleManager) (keyslice : pykey)
  : M ParticleManager :=
  xs ← read (plist self);
  plout ← lift (getitem_plout xs keyslice);
  ParticleManager_init plout (fastnames self).

(** [idx not in to_remove]: an [int] equals no [slice]. *)
Definition in_to_remove (idx : nat) (to_remove : list index) : bool :=
  bool_decide (IInt (Z.of_nat idx) ∈ to_remove).

(** The contents [__delitem__] leaves, from the current entries [xs]. *)
Definition delitem_plist (xs : list MetaParticle) (keyslice : pykey)
  : result (list MetaParticle) :=
  let nmap := namemap_of xs in
  match keyslice with
  | KArray a =>
      (* [self.plist[idx] for idx, exists in enumerate(boolout) if not exists] *)
      mapM (λ ie, list_getitem xs (Z.of_nat ie.1))
           (filter (λ ie, ie.2 = false) (enumerate (astype_bool a)))
  | KIter ks =>
      to_remove ← mapM (_unmask_index nmap) ks;
      (* [self.plist[idx] for idx in range(len(self)) if idx not in to_remove] *)
      mapM (λ idx, list_getitem xs (Z.of_nat idx))
           (filter (λ idx, in_to_remove idx to_remove = false) (seq 0 (length xs)))
  | KAtom a =>
      ix ← _unmask_index nmap a;
      list_delitem xs ix
  end.

(** [__delitem__]: the receiver's list object is updated in place. *)
Definition __delitem__ (self : ParticleManager) (keyslice : pykey) : M unit :=
  xs ← read (plist self);
  xs' ← lift (delitem_plist xs keyslice);
  write (plist self) xs'.

(** ** Merging and subtracting *)

(** Python 2's [map(None, xs, ys)]: pairs, the shorter side padded with
    [None]. *)
Fixpoint map_None {A} (xs ys : list A) : list (option A * option A) :=
  match xs, ys with
  | [], [] => []
  | x :: xs', [] => (Some x, None) :: map_None xs' []
  | [], y :: ys' => (None, Some y) :: ((λ y, (None, Some y)) <$> ys')
  | x :: xs', y :: ys' => (Some x, Some y) :: map_None xs' ys'
  end.

(** [[p for pout in map(None, p1_temp, p2) for p in pout]] and then
    [[p for p in pout if p is not None]]. *)
Definition alternate_particles {A} (xs ys : list A) : list A :=
  let pout := mjoin ((λ pr, [pr.1; pr.2]) <$> map_None xs ys) in
  omap id pout.

(** [[name for name in p1.names if name in p2.names]] *)
Definition shared_names (n1 n2 : list string) : list string :=
  filter (λ nm, nm ∈ n2) n1.

(** [[p for p in p1 if p.name not in shared]] *)
Definition not_shared (shared : list string) (xs : list MetaParticle)
  : list MetaParticle :=
  filter (λ p, name p ∉ shared) xs.

(** [concat_particles(p1, p2, alternate=False, overwrite=False)] *)
Definition concat_particles (p1 p2 : ParticleManager)
    (alternate overwrite : bool) : M ParticleManager :=
  p1_temp ← copy_copy p1;
  n1 ← names p1;
  n2 ← names p2;
  let shared := shared_names n1 n2 in
  _ ← (if bool_decide (shared = []) then mret tt
       else if overwrite then
         it ← __iter__ p1;
         write (plist p1_temp) (not_shared shared it)
       else raise (ManagerError_duplicates (length shared)));
  l1 ← read (plist p1_temp);
  l2 ← read (plist p2);
  let pout := (l1 ++ l2)%list in
  pout ← (if alternate then
            i1 ← __iter__ p1_temp;
            i2 ← __iter__ p2;
            mret (alternate_particles i1 i2)
          else mret pout);
  ParticleManager_init pout false.

(** [subtract_particles(p1, p2)] *)
Definition subtract_particles (p1 p2 : ParticleManager) : M ParticleManager :=
  p1_temp ← copy_copy p1;
  n1 ← names p1;
  n2 ← names p2;
  let shared := shared_names n1 n2 in
  it ← __iter__ p1;
  _ ← write (plist p1_temp) (not_shared shared it);
  mret p1_temp.

(** [__add__] and [__sub__] *)
Definition __add__ (self p2 : ParticleManager) : M ParticleManager :=
  concat_particles self p2 false false.

Definition __sub__ (self p2 : ParticleManager) : M ParticleManager :=
  subtract_particles self p2.

(** ** Sorting *)

(** Modelled from the spec: attribute access on a [MetaParticle] (the
    class is not under src/).  The entry answers for its name and passes
    any other attribute on to its particle: the type tag and the named
    attributes of the particle capability contract. *)
Definition getattr_meta (attr : string) (m : MetaParticle) : result pyval :=
  if bool_decide (attr = "name") then inr (VStr (name m))
  else if bool_decide (attr = "ptype") then inr (VStr (ptype (particle m)))
  else match list_find (λ kv, kv.1 = attr) (attrs (particle m)) with
       | Some (_, kv) => inr kv.2
       | None => inl (AttributeError attr)
       end.

(** Python 2's [<] on the values: numbers by value, strings by character
    code, and any number below any string. *)
Definition pyval_lt (a b : pyval) : bool :=
  match a, b with
  | VInt x, VInt y => bool_decide (x < y)
  | VStr s, VStr t => String.ltb s t
  | VInt _, VStr _ => true
  | VStr _, VInt _ => false
  end.

(** [sorted(xs, key=...)] is stable: an element goes after every element
    already placed that is not greater than it. *)
Fixpoint sorted_insert {A} (lt : A → A → bool) (x : A) (l : list A) : list A :=
  match l with
  | [] => [x]
  | y :: l' => if lt x y then x :: y :: l' else y :: sorted_insert lt x l'
  end.

Definition sorted_by {A} (lt : A → A → bool) (l : list A) : list A :=
  foldl (λ acc x, sorted_insert lt x acc) [] l.

(** [sortby(self, attr='name', inplace=False)]: [None] when in place. *)
Definition sortby (self : ParticleManager) (attr : string) (inplace : bool)
  : M (option ParticleManager) :=
  xs ← read (plist self);
  keyed ← lift (mapM (λ m, k ← getattr_meta attr m; mret (k, m)) xs);
  let plistout := snd <$> sorted_by (λ a b, pyval_lt a.1 b.1) keyed in
  if inplace then
    _ ← write (plist self) plistout; mret None
  else
    pm ← ParticleManager_init plistout false; mret (Some pm).

(** ** Reference definitions, in the words of the specification *)

(** Interleaving position by position, [a0, b0, a1, b1, ...]; once one
    side is exhausted the rest of the other side follows. *)
Fixpoint interleave {A} (xs ys : list A) : list A :=
  match xs, ys with
  | [], _ => ys
  | _, [] => xs
  | x :: xs', y :: ys' => x :: y :: interleave xs' ys'
  end.

(** One filter pass over the entries and their flags: an entry stays when
    its flag is false. *)
Fixpoint filter_once {A} (xs : list A) (mask : list bool) : list A :=
  match xs, mask with
  | x :: xs', b :: mask' =>
      if b then filter_once xs' mask' else x :: filter_once xs' mask'
  | _, _ => []
  end.

(** The positions a mask flags, and the positions it leaves unflagged, in
    increasing order. *)
Definition flagged (mask : list bool) : list nat :=
  filter (λ i, mask !! i = Some true) (seq 0 (length mask)).

Definition unflagged (mask : list bool) : list nat :=
  filter (λ i, mask !! i = Some false) (seq 0 (length mask)).

(** What is left of a list once position [0] (if [drop0]) and position
    [1] (if [drop1]) are gone. *)
Definition without_first_two {A} (xs : list A) (drop0 drop1 : bool) : list A :=
  (if drop0 then [] else take 1 xs)
  ++ (if drop1 then [] else take 1 (drop 1 xs))
  ++ drop 2 xs.

(** Deleting one position after the other, each by its raw position in
    the list as it is at that moment. *)
Definition repeated_delete {A} (xs : list A) (positions : list nat) : list A :=
  foldl (λ acc i, delete i acc) xs positions.

(** The positions of a slice from [i] to [j] with step [k], as the
    language reference gives them: [i], [i + k], [i + 2 * k], ..., for as
    long as [j] has not been reached; [j] itself is never included. *)
Fixpoint slice_walk (fuel : nat) (i j k : Z) : list nat :=
  match fuel with
  | O => []
  | S fuel' =>
      if bool_decide ((0 < k ∧ i < j) ∨ (k < 0 ∧ j < i))
      then Z.to_nat i :: slice_walk fuel' (i + k) j k
      else []
  end.

(** The positions [slice(start, stop, step)] stands for in a sequence of
    [n] entries.  A negative bound counts from the end; a bound is then
    brought into the sequence ([0 .. n] when walking up, [-1 .. n - 1]
    when walking down), and a missing bound is the end of the sequence on
    its side.  No position is visited twice, so [n] steps are enough.  A
    step of zero is no slice. *)
Definition slice_positions (n : nat) (start stop step : option Z)
  : option (list nat) :=
  let k := default 1 step in
  let len := Z.of_nat n in
  let lo := if bool_decide (k < 0) then -1 else 0 in
  let hi := if bool_decide (k < 0) then len - 1 else len in
  let place (b : Z) :=
    lo `max` ((if bool_decide (b < 0) then b + len else b) `min` hi) in
  if bool_decide (k = 0) then None
  else
    let i := from_option place (if bool_decide (k < 0) then hi else lo) start in
    let j := from_option place (if bool_decide (k < 0) then lo else hi) stop in
    Some (slice_walk n i j k).

(** A key that is a sequence of booleans, in a list or in an array, and
    an array of integers. *)
Definition as_mask (ks : list atom) : option (list bool) :=
  mapM (λ a, match a with ABool b => Some b | _ => None end) ks.

Definition array_mask (a : list npval) : option (list bool) :=
  mapM (λ v, match v with NBool b => Some b | NInt _ => None end) a.

Definition array_ints (a : list npval) : option (list Z) :=
  mapM (λ v, match v with NInt z => Some z | NBool _ => None end) a.

(** The position an integer refers to in a sequence of [n] entries: the
    integer itself, or, for a negative one, as many places from the end. *)
Definition spec_position (n : nat) (i : Z) : option nat :=
  if bool_decide (0 ≤ i < Z.of_nat n) then Some (Z.to_nat i)
  else if bool_decide (- Z.of_nat n ≤ i < 0) then Some (Z.to_nat (Z.of_nat n + i))
  else None.

(** The position of the entry of a given name: names are unique in an
    engine; should a sequence repeat a name, the last entry of that name
    is meant. *)
Definition name_position (xs : list MetaParticle) (s : string) : option nat :=
  foldl (λ found ie, if decide (name ie.2 = s) then Some ie.1 else found)
    None (enumerate xs).

(** Index resolution of the specification: the positions a key stands
    for, in resolution order; [None] when the key is not valid for the
    entries [xs].  An integer, a name and an entry stand for one
    position.  A sequence of booleans as long as [xs] is a mask and
    stands for the positions where it is true; any other iterable of
    integers, names and entries stands for the position of each of its
    elements, in the caller's order. *)
Definition spec_resolve_one (xs : list MetaParticle) (a : atom) : option nat :=
  match a with
  | AInt i => spec_position (length xs) i
  | AStr s => name_position xs s
  | AMeta m => name_position xs (name m)
  | ABool _ | ASlice _ _ _ | AOther _ => None
  end.

Definition spec_resolve_mask (xs : list MetaParticle) (flags : list bool)
  : option (list nat) :=
  if bool_decide (length flags = length xs) then Some (flagged flags) else None.

Definition spec_resolve (xs : list MetaParticle) (key : pykey)
  : option (list nat) :=
  match key with
  | KAtom (ASlice a b c) => slice_positions (length xs) a b c
  | KAtom a => k ← spec_resolve_one xs a; Some [k]
  | KArray [] | KIter [] => Some []
  | KArray a =>
      match array_mask a with
      | Some flags => spec_resolve_mask xs flags
      | None => ints ← array_ints a; mapM (spec_position (length xs)) ints
      end
  | KIter ks =>
      match as_mask ks with
      | Some flags => spec_resolve_mask xs flags
      | None => mapM (spec_resolve_one xs) ks
      end
  end.

(** The two kinds of key [__getitem__] and [__delitem__] do not read as
    the specification resolves them: a list of booleans and an array of
    integers. *)
Definition boolean_list (key : pykey) : Prop :=
  match key with
  | KIter (k :: ks) => is_Some (as_mask (k :: ks))
  | _ => False
  end.

Definition integer_array (key : pykey) : Prop :=
  match key with
  | KArray (v :: a) => is_Some (array_ints (v :: a))
  | _ => False
  end.

(** The operations that hand back a manager, each with a receiver. *)
Inductive engine_op :=
  | OpMerge (alternate overwrite : bool)
  | OpSubtract
  | OpSort (attr : string)
  | OpGetitem (key : pykey).

Definition run_op (op : engine_op) (self other : ParticleManager)
  : M ParticleManager :=
  match op with
  | OpMerge alternate overwrite => concat_particles self other alternate overwrite
  | OpSubtract => __sub__ self other
  | OpSort attr =>
      r ← sortby self attr false;
      match r with Some pm => mret pm | None => raise TraitError end
  | OpGetitem key => __getitem__ self key
  end.

(** An operation carries the receiver's [fastnames] setting into its
    result when every manager it returns has the receiver's setting. *)
Definition carries_fastnames (op : engine_op) : Prop :=
  ∀ σ self other σ' r,
    run_op op self other σ = (σ', inr r) → fastnames r = fastnames self.

(** ** Sample data *)

Definition circle : Particle := mkParticle "circle" [("radius", VInt 2)].
Definition dimer : Particle := mkParticle "dimer" [].

Definition entry (nm : string) (p : Particle) : MetaParticle := mkMeta nm None p.

(** A registry knowing the two sample types. *)
Definition sample_types : gmap string (traitargs → Particle) :=
  {[ "circle" := mkParticle "circle"; "dimer" := mkParticle "dimer" ]}.

(** Two managers with lists of their own; the name [x] occurs in both. *)
Definition pm_a : ParticleManager := mkManager 1%positive true.
Definition pm_b : ParticleManager := mkManager 2%positive false.
Definition pm_empty : ParticleManager := mkManager 3%positive true.

Definition sample_store : store :=
  {[ 1%positive := [entry "a" circle; entry "x" circle; entry "b" dimer];
     2%positive := [entry "x" dimer; entry "c" circle];
     3%positive := [] ]}.

(** Two managers without a common name. *)
Definition disjoint_store : store :=
  {[ 1%positive := [entry "a" circle; entry "b" dimer; entry "c" circle];
     2%positive := [entry "y" dimer];
     3%positive := [] ]}.

(** ** Further methods of the manager *)

(** What [idx] returns: the position itself for a single name, a tuple of
    positions otherwise (the empty tuple for no name at all). *)
Inductive idx_result :=
  | IdxOne (k : nat)
  | IdxTuple (ks : list nat).

Module Methods.

(** [idx(self, *names)]: [tuple(self._namemap[name] for name in names)],
    unpacked when it has one element. *)
Definition idx (self : ParticleManager) (nms : list string) : M idx_result :=
  nmap ← _namemap self;
  out ← lift (mapM (dict_get nmap) nms);
  mret (match out with
        | [k] => IdxOne k
        | _ => IdxTuple out
        end).

(** [pop(self, idx)]: [self.plist.pop(idx)]; the popped entry is not
    returned. *)
Definition pop (self : ParticleManager) (i : Z) : M unit :=
  xs ← read (plist self);
  match py_norm (length xs) i with
  | Some k => write (plist self) (delete k xs)
  | None => raise IndexError
  end.

(** [reverse(self)]: [self.plist.reverse()], in place. *)
Definition reverse (self : ParticleManager) : M unit :=
  xs ← read (plist self);
  write (plist self) (list.reverse xs).

(** [map(self, fcn)]: [self.plist[:] = [fcn(p) for p in self.plist]]; the
    function may raise. *)
Definition map (self : ParticleManager)
    (fcn : MetaParticle → result MetaParticle) : M unit :=
  xs ← read (plist self);
  ys ← lift (mapM fcn xs);
  write (plist self) ys.

End Methods.

(** [__setitem__]: item assignment is refused. *)
Definition __setitem__ (self : ParticleManager) (keyorslice : pykey)
    (p : MetaParticle) : M unit :=
  raise ManagerError_setitem.

(** [__getattr__]: [tuple(getattr(p, attr) for p in self.plist)], as an
    array. *)
Definition __getattr__ (self : ParticleManager) (attr : string)
  : M (list pyval) :=
  xs ← read (plist self);
  lift (mapM (getattr_meta attr) xs).

(** The [particles] property. *)
Definition particles (self : ParticleManager) : M (list Particle) :=
  xs ← read (plist self); mret (particle <$> xs).

(** The [ptypes] property. *)
Definition ptypes (self : ParticleManager) : M (list string) :=
  xs ← read (plist self); mret (ptypes_of xs).

(** ** Column output *)

(** [' ' * n] *)
Fixpoint spaces (n : nat) : string :=
  match n with
  | O => ""
  | S n' => " " +:+ spaces n'
  end.

(** [str.ljust], [str.rjust] and [str.center] of Python 2: a string at
    least as long as the width comes back as it is; [center] puts
    [marg / 2 + (marg & width & 1)] of the [marg] fill characters on the
    left. *)
Definition str_ljust (s : string) (width : nat) : string :=
  s +:+ spaces (width - String.length s).

Definition str_rjust (s : string) (width : nat) : string :=
  spaces (width - String.length s) +:+ s.

Definition str_center (s : string) (width : nat) : string :=
  let marg := (width - String.length s)%nat in
  let left := (marg / 2 + Nat.land (Nat.land marg width) 1)%nat in
  spaces left +:+ s +:+ spaces (marg - left).

(** The dictionary [{'l': str.ljust, 'r': str.rjust, 'c': str.center}]. *)
Definition just_fcn (align : string) : result (string → nat → string) :=
  if bool_decide (align = "l") then inr str_ljust
  else if bool_decide (align = "r") then inr str_rjust
  else if bool_decide (align = "c") then inr str_center
  else inl (KeyError align).

(** [padding.join(...)] over the three cells of a row. *)
Definition join3 (sep : string) (cells : string * string * string) : string :=
  cells.1.1 +:+ sep +:+ cells.1.2 +:+ sep +:+ cells.2.

(** [max(map(len, col))] for each of the three columns. *)
Definition max_len (col : list string) : nat :=
  foldr (λ s m, String.length s `max` m)%nat 0%nat col.

Definition column_widths (rows : list (string * string * string))
  : nat * nat * nat :=
  (max_len ((λ r, r.1.1) <$> rows),
   max_len ((λ r, r.1.2) <$> rows),
   max_len ((λ r, r.2) <$> rows)).

(** The rows [format_particles] lays out: the header row, or an empty row
    in its place, then one row per entry. *)
Definition format_rows (xs : list MetaParticle) (header : bool)
  : list (string * string * string) :=
  (if header then ("", "NAME", "PTYPE") else ("", "", ""))
  :: ((λ ip, (pretty ip.1, name ip.2, ptype (particle ip.2))) <$> enumerate xs).

(** The lines of the table, before they are joined by newlines. *)
Definition format_lines (xs : list MetaParticle) (align : string)
    (padding : nat) (header : bool) : result (list string) :=
  let pad := spaces padding in
  just ← just_fcn align;
  let outrows := format_rows xs header in
  let widths := column_widths outrows in
  mret ((λ row, join3 pad (just row.1.1 widths.1.1,
                            just row.1.2 widths.1.2,
                            just row.2 widths.2)) <$> outrows).

(** The newline character, as a string. *)
Definition newline : string := String (Ascii.ascii_of_nat 10) "".

(** [format_particles(obj, align='l', padding=3, header=True)] *)
Definition format_particles (self : ParticleManager) (align : string)
    (padding : nat) (header : bool) : M string :=
  xs ← read (plist self);
  lines ← lift (format_lines xs align padding header);
  mret (String.concat newline lines).

(** ** Slices with step one *)

(** Where a bound of [xs[start:stop]] lands in a list of length [n]: a
    negative bound counts from the end, and the result is clamped to
    [0 .. n]; a missing bound is the given default. *)
Definition slice_clamp (n : nat) (dflt : nat) (b : option Z) : nat :=
  match b with
  | None => dflt
  | Some b =>
      let b := if bool_decide (b < 0) then b + Z.of_nat n else b in
      Z.to_nat (0 `max` (b `min` Z.of_nat n))
  end.

(** * Properties *)

(** ** The monad and the store *)

Ltac run :=
  unfold ParticleManager_init, copy_copy, __len__, __iter__, names, _namemap,
    ptype_count;
  unfold mbind, M_bind, mret, M_ret, raise, lift, read, write, alloc; simpl.

Lemma read_allocated (σ : store) (l : loc) (xs : list MetaParticle) :
  σ !! l = Some xs → σ !!! l = xs.
Proof. intros H. by rewrite lookup_total_alt, H. Qed.

Lemma fresh_not_allocated (σ : store) (l : loc) :
  is_Some (σ !! l) → fresh (dom σ) ≠ l.
Proof.
  intros H%elem_of_dom Heq. subst l.
  by apply (is_fresh (dom σ)).
Qed.

(** ** The name index *)

Lemma enumerate_snoc {A} (xs : list A) (x : A) :
  enumerate (xs ++ [x]) = enumerate xs ++ [(length xs, x)].
Proof.
  unfold enumerate. rewrite imap_app. simpl. by rewrite Nat.add_0_r.
Qed.

Lemma namemap_of_snoc (xs : list MetaParticle) (x : MetaParticle) :
  namemap_of (xs ++ [x]) = <[name x := length xs]> (namemap_of xs).
Proof.
  unfold namemap_of. rewrite enumerate_snoc, foldl_app. reflexivity.
Qed.

Lemma namemap_of_None (xs : list MetaParticle) (nm : string) :
  namemap_of xs !! nm = None ↔ nm ∉ names_of xs.
Proof.
  induction xs as [|x xs IH] using rev_ind.
  - split; [intros _; apply not_elem_of_nil | intros _; apply lookup_empty].
  - rewrite namemap_of_snoc. unfold names_of in *. rewrite fmap_app. simpl.
    rewrite lookup_insert_None, not_elem_of_app, IH.
    rewrite list_elem_of_singleton. intuition congruence.
Qed.

Lemma namemap_of_Some (xs : list MetaParticle) (nm : string) (k : nat) :
  namemap_of xs !! nm = Some k → names_of xs !! k = Some nm.
Proof.
  induction xs as [|x xs IH] using rev_ind.
  - unfold namemap_of. simpl. by rewrite lookup_empty.
  - rewrite namemap_of_snoc. unfold names_of in *. rewrite fmap_app. simpl.
    rewrite lookup_insert_Some. intros [[<- <-]|[Hne Hk]].
    + rewrite lookup_app_r; rewrite length_fmap; [|lia].
      by rewrite Nat.sub_diag.
    + apply IH in Hk. by rewrite lookup_app_l_Some with (x:=nm).
Qed.

Lemma namemap_of_is_Some (xs : list MetaParticle) (nm : string) :
  nm ∈ names_of xs → is_Some (namemap_of xs !! nm).
Proof.
  intros Hin. destruct (namemap_of xs !! nm) eqn:E; [eauto|].
  by apply namemap_of_None in E.
Qed.

(** ** The per-type counter *)

Lemma fmap_fst_pair {A B} (f : A → B) (l : list A) :
  ((λ a, (a, f a)) <$> l).*1 = l.
Proof. induction l as [|a l IH]; csimpl; [done|]. by f_equal. Qed.

Lemma ptype_count_of_lookup (xs : list MetaParticle) (typ : string) :
  default 0%nat (ptype_count_of xs !! typ)
  = count_of typ ((λ p, ptype (particle p)) <$> xs).
Proof.
  unfold ptype_count_of, ptypes_of.
  set (tys := (λ p, ptype (particle p)) <$> xs).
  destruct (decide (typ ∈ tys)) as [Hin|Hnin].
  - erewrite elem_of_list_to_map_1; [reflexivity| |].
    + rewrite fmap_fst_pair. apply NoDup_remove_dups.
    + apply list_elem_of_fmap. exists typ. split; [done|].
      by apply elem_of_remove_dups.
  - rewrite not_elem_of_list_to_map_1.
    + simpl. unfold count_of.
      destruct (filter (λ t, t = typ) tys) as [|t ts] eqn:E; [done|].
      assert (t ∈ filter (λ t, t = typ) tys) as Ht by (rewrite E; left).
      apply list_elem_of_filter in Ht as [-> Ht]. done.
    + by rewrite fmap_fst_pair, elem_of_remove_dups.
Qed.

(** ** [add] *)

Section add_facts.
Context (ALLTYPES : gmap string (traitargs → Particle)).

(** What one call of [add] does, case by case. *)
Lemma add_eq (σ : store) self arg nm idx col :
  add ALLTYPES self arg nm idx col σ =
  match resolve_particle ALLTYPES arg with
  | inl e => (σ, inl e)
  | inr p =>
      let xs := σ !!! plist self in
      let n := length xs in
      let i := if idx_falsy idx then Z.of_nat n else default 0 idx in
      let nm' := if bool_decide (nm = "")
                 then auto_name (fastnames self) xs p i else nm in
      let meta := mkMeta nm' (color_given col) p in
      match namemap_of xs !! nm' with
      | Some k => (σ, inl (ManagerError_named k nm'))
      | None =>
          (<[plist self := if bool_decide (i = Z.of_nat n)
                           then xs ++ [meta] else py_insert i meta xs]> σ,
           inr tt)
      end
  end.
Proof.
  unfold add. run.
  destruct (resolve_particle ALLTYPES arg) as [e|p]; [done|]. simpl.
  destruct (namemap_of _ !! _); [done|].
  by case_bool_decide.
Qed.

(** An [add] without name and position appends under the generated
    name, provided that name is free. *)
Lemma add_auto (σ : store) self arg p xs :
  resolve_particle ALLTYPES arg = inr p →
  σ !!! plist self = xs →
  auto_name (fastnames self) xs p (Z.of_nat (length xs)) ∉ names_of xs →
  add ALLTYPES self arg "" None None σ =
  (<[plist self :=
       xs ++ [mkMeta (auto_name (fastnames self) xs p (Z.of_nat (length xs)))
                None p]]> σ, inr tt).
Proof.
  intros Hp Hxs Hfree. rewrite add_eq, Hp, Hxs. simpl.
  apply namemap_of_None in Hfree. rewrite Hfree.
  by rewrite bool_decide_eq_true_2.
Qed.
End add_facts.

Ltac name_is_free := apply (bool_decide_unpack _); vm_compute; exact I.

(** C2. Five [add] calls without a name on an empty manager, three
    particles of type [circle] and then two of type [dimer], each
    appended: with [fastnames] the generated names are [circle_0],
    [circle_1], [circle_2], [dimer_3], [dimer_4] (the counter is the
    position), without it they are [circle_0], [circle_1], [circle_2],
    [dimer_0], [dimer_1] (the counter is per type). *)
Theorem add_generated_names
    (ALLTYPES : gmap string (traitargs → Particle)) (σ : store) (l : loc)
    (fast : bool) (a1 a2 a3 a4 a5 : particle_arg) (c1 c2 c3 d1 d2 : Particle) :
  σ !! l = Some [] →
  resolve_particle ALLTYPES a1 = inr c1 → ptype c1 = "circle" →
  resolve_particle ALLTYPES a2 = inr c2 → ptype c2 = "circle" →
  resolve_particle ALLTYPES a3 = inr c3 → ptype c3 = "circle" →
  resolve_particle ALLTYPES a4 = inr d1 → ptype d1 = "dimer" →
  resolve_particle ALLTYPES a5 = inr d2 → ptype d2 = "dimer" →
  let self := mkManager l fast in
  (_ ← add ALLTYPES self a1 "" None None;
   _ ← add ALLTYPES self a2 "" None None;
   _ ← add ALLTYPES self a3 "" None None;
   _ ← add ALLTYPES self a4 "" None None;
   _ ← add ALLTYPES self a5 "" None None;
   names self) σ
  = (<[l := [mkMeta "circle_0" None c1;
             mkMeta "circle_1" None c2;
             mkMeta "circle_2" None c3;
             mkMeta (if fast then "dimer_3" else "dimer_0") None d1;
             mkMeta (if fast then "dimer_4" else "dimer_1") None d2]]> σ,
     inr (if fast
          then ["circle_0"; "circle_1"; "circle_2"; "dimer_3"; "dimer_4"]
          else ["circle_0"; "circle_1"; "circle_2"; "dimer_0"; "dimer_1"])).
Proof.
  intros Hl H1 T1 H2 T2 H3 T3 H4 T4 H5 T5 self.
  apply read_allocated in Hl.
  destruct c1 as [t1 k1], c2 as [t2 k2], c3 as [t3 k3],
    d1 as [t4 k4], d2 as [t5 k5]; simpl in *; subst.
  unfold mbind, M_bind.
  erewrite add_auto; [|exact H1|exact Hl|destruct fast; name_is_free].
  erewrite add_auto;
    [|exact H2|apply lookup_total_insert_eq|destruct fast; name_is_free].
  erewrite add_auto;
    [|exact H3|apply lookup_total_insert_eq|destruct fast; name_is_free].
  erewrite add_auto;
    [|exact H4|apply lookup_total_insert_eq|destruct fast; name_is_free].
  erewrite add_auto;
    [|exact H5|apply lookup_total_insert_eq|destruct fast; name_is_free].
  unfold names, mbind, M_bind, read, mret, M_ret.
  rewrite lookup_total_insert_eq, !insert_insert_eq.
  destruct fast; vm_compute names_of; reflexivity.
Qed.

Lemma add_generated_names_witness :
  (_ ← add sample_types pm_empty (ByType "circle" []) "" None None;
   _ ← add sample_types pm_empty (ByInstance circle) "" None None;
   _ ← add sample_types pm_empty (ByInstance circle) "" None None;
   _ ← add sample_types pm_empty (ByType "dimer" []) "" None None;
   _ ← add sample_types pm_empty (ByInstance dimer) "" None None;
   names pm_empty) sample_store
  = (<[3%positive :=
         [mkMeta "circle_0" None (mkParticle "circle" []);
          mkMeta "circle_1" None circle;
          mkMeta "circle_2" None circle;
          mkMeta "dimer_3" None (mkParticle "dimer" []);
          mkMeta "dimer_4" None dimer]]> sample_store,
     inr ["circle_0"; "circle_1"; "circle_2"; "dimer_3"; "dimer_4"]).
Proof.
  apply (add_generated_names sample_types sample_store 3%positive true
           (ByType "circle" []) (ByInstance circle) (ByInstance circle)
           (ByType "dimer" []) (ByInstance dimer)
           (mkParticle "circle" []) circle circle
           (mkParticle "dimer" []) dimer); reflexivity.
Defined.

(** Not every [add] that supplies a name already present fails on the
    name: the particle is made first, so a type name the registry does
    not know is what is reported, whatever the name. *)
Lemma add_unknown_type_reported_first :
  "x" ∈ names_of (sample_store !!! plist pm_a) ∧
  sample_types !! "nosuch" = None ∧
  add sample_types pm_a (ByType "nosuch" []) "x" None None sample_store
  = (sample_store, inl (KeyErrorManager "nosuch")) ∧
  ∀ k, add sample_types pm_a (ByType "nosuch" []) "x" None None sample_store
       ≠ (sample_store, inl (ManagerError_named k "x")).
Proof.
  split; [apply (bool_decide_unpack _); vm_compute; exact I|].
  split; [reflexivity|].
  assert (add sample_types pm_a (ByType "nosuch" []) "x" None None sample_store
          = (sample_store, inl (KeyErrorManager "nosuch"))) as Hadd
    by reflexivity.
  split; [done|]. intros k. rewrite Hadd. discriminate.
Qed.

(** C3, as the code has it.  An [add] that supplies a name some entry
    already has raises and leaves the store, hence the manager's
    entries, their order and their number, as it was.  When the particle
    argument is an instance or a type name the registry knows, the
    exception is the [ManagerError] formatted from the position the name
    index gives for that name and from the name itself; when it is a
    type name the registry does not know, the exception is the one
    [_make_particle] raises. *)
Theorem add_existing_name_raises
    (ALLTYPES : gmap string (traitargs → Particle)) (σ : store)
    (self : ParticleManager) (arg : particle_arg) (nm : string)
    (idx : option Z) (col : option pyval) :
  nm ≠ "" →
  nm ∈ names_of (σ !!! plist self) →
  ∃ e, add ALLTYPES self arg nm idx col σ = (σ, inl e) ∧
    match resolve_particle ALLTYPES arg with
    | inr _ =>
        ∃ k, e = ManagerError_named k nm ∧
             namemap_of (σ !!! plist self) !! nm = Some k ∧
             names_of (σ !!! plist self) !! k = Some nm
    | inl e' => e = e'
    end.
Proof.
  intros Hnm Hin. rewrite add_eq.
  destruct (resolve_particle ALLTYPES arg) as [e'|p]; [by exists e'|].
  simpl. rewrite bool_decide_eq_false_2 by done.
  destruct (namemap_of_is_Some _ _ Hin) as [k Hk]. rewrite Hk.
  exists (ManagerError_named k nm). split; [done|].
  exists k. eauto using namemap_of_Some.
Qed.

Lemma add_existing_name_raises_witness :
  ∃ e, add sample_types pm_a (ByType "dimer" []) "x" None None sample_store
       = (sample_store, inl e) ∧
    match resolve_particle sample_types (ByType "dimer" []) with
    | inr _ =>
        ∃ k, e = ManagerError_named k "x" ∧
             namemap_of (sample_store !!! plist pm_a) !! "x" = Some k ∧
             names_of (sample_store !!! plist pm_a) !! k = Some "x"
    | inl e' => e = e'
    end.
Proof.
  apply (add_existing_name_raises sample_types sample_store pm_a
           (ByType "dimer" []) "x" None None).
  - discriminate.
  - apply (bool_decide_unpack _). vm_compute. exact I.
Defined.

(** ** Insertion positions *)

Lemma py_insert_pos_in_range (n : nat) (i : Z) :
  0 ≤ i ≤ Z.of_nat n → py_insert_pos n i = Z.to_nat i.
Proof.
  intros Hi. unfold py_insert_pos. cbv zeta.
  repeat case_bool_decide; lia.
Qed.

Lemma py_insert_in_range {A} (i : Z) (x : A) (xs : list A) :
  0 ≤ i ≤ Z.of_nat (length xs) →
  py_insert i x xs = take (Z.to_nat i) xs ++ x :: drop (Z.to_nat i) xs.
Proof. intros Hi. unfold py_insert. by rewrite py_insert_pos_in_range. Qed.

Lemma py_insert_lookup {A} (i : Z) (x : A) (xs : list A) :
  0 ≤ i ≤ Z.of_nat (length xs) →
  py_insert i x xs !! Z.to_nat i = Some x.
Proof.
  intros Hi. rewrite py_insert_in_range by done.
  rewrite lookup_app_r; rewrite length_take; [|lia].
  by replace (Z.to_nat i - Z.to_nat i `min` length xs)%nat with 0%nat by lia.
Qed.

(** C8. On a manager that is not empty, [add] with the explicit position
    [0] does not put the new entry in front: [0] is false like [None], so
    the call is the call without a position, and the entry goes to the end
    (under the name generated for the position [len(self)] when no name is
    given); the first entry stays the first.  A position other than [0]
    is honoured: the entry is inserted there as [list.insert] does. *)
Theorem add_position_zero_appends
    (ALLTYPES : gmap string (traitargs → Particle)) (σ : store)
    (self : ParticleManager) (arg : particle_arg) (nm : string)
    (col : option pyval) (p : Particle) :
  let xs := σ !!! plist self in
  let n := Z.of_nat (length xs) in
  let name_at i :=
    if bool_decide (nm = "") then auto_name (fastnames self) xs p i else nm in
  let meta_at i := mkMeta (name_at i) (color_given col) p in
  xs ≠ [] →
  resolve_particle ALLTYPES arg = inr p →
  (name_at n ∉ names_of xs →
     add ALLTYPES self arg nm (Some 0) col σ
     = (<[plist self := xs ++ [meta_at n]]> σ, inr tt) ∧
     add ALLTYPES self arg nm (Some 0) col σ
     = add ALLTYPES self arg nm None col σ ∧
     (xs ++ [meta_at n]) !! 0%nat = xs !! 0%nat ∧
     xs !! 0%nat ≠ Some (meta_at n) ∧
     (xs ++ [meta_at n]) !! length xs = Some (meta_at n)) ∧
  (∀ i, i ≠ 0 → name_at i ∉ names_of xs →
     add ALLTYPES self arg nm (Some i) col σ
     = (<[plist self := py_insert i (meta_at i) xs]> σ, inr tt) ∧
     (0 < i ≤ n →
      py_insert i (meta_at i) xs
      = take (Z.to_nat i) xs ++ meta_at i :: drop (Z.to_nat i) xs ∧
      py_insert i (meta_at i) xs !! Z.to_nat i = Some (meta_at i))).
Proof.
  intros xs n name_at meta_at Hne Hp. split.
  - intros Hfree. rewrite !add_eq, Hp. simpl.
    fold xs n. fold (name_at n).
    pose proof Hfree as Hnone. apply namemap_of_None in Hnone.
    rewrite Hnone. rewrite bool_decide_eq_true_2 by done.
    repeat split; try done.
    + destruct xs; done.
    + intros Hhd. apply Hfree. apply list_elem_of_lookup. exists 0%nat.
      unfold names_of. by rewrite list_lookup_fmap, Hhd.
    + rewrite lookup_app_r by lia. by rewrite Nat.sub_diag.
  - intros i Hi Hfree. split.
    + rewrite add_eq, Hp. simpl. rewrite (bool_decide_eq_false_2 (i = 0)) by done.
      simpl. fold xs n. fold (name_at i).
      apply namemap_of_None in Hfree. rewrite Hfree.
      case_bool_decide as Hin; [|done].
      do 2 f_equal. fold (meta_at i). rewrite Hin.
      rewrite py_insert_in_range by lia. unfold n.
      by rewrite Nat2Z.id, firstn_all, drop_all.
    + intros Hrange. split.
      * apply py_insert_in_range. lia.
      * apply py_insert_lookup. lia.
Qed.

Lemma add_position_zero_appends_witness :
  add sample_types pm_a (ByInstance dimer) "" (Some 0) None sample_store
  = (<[1%positive :=
         [entry "a" circle; entry "x" circle; entry "b" dimer;
          entry "dimer_3" dimer]]> sample_store, inr tt).
Proof.
  pose proof (add_position_zero_appends sample_types sample_store pm_a
                (ByInstance dimer) "" None dimer) as H.
  cbv zeta in H.
  destruct H as [H _]; [discriminate|reflexivity|].
  destruct H as [H _]; [apply (bool_decide_unpack _); vm_compute; exact I|].
  exact H.
Defined.

(** ** Comprehensions over positions *)

Lemma mapM_result_inr {A B} (f : A → result B) (l : list A) (k : list B) :
  Forall2 (λ x y, f x = inr y) l k → mapM f l = inr k.
Proof.
  induction 1 as [|x y l k Hxy _ IH]; [done|].
  simpl. rewrite Hxy. simpl. by rewrite IH.
Qed.

Lemma mapM_result_fmap {A B C} (g : A → C) (f : C → result B) (l : list A) :
  mapM (λ x, f (g x)) l = mapM f (g <$> l).
Proof.
  induction l as [|x l IH]; [done|].
  simpl. by rewrite IH.
Qed.

Lemma py_norm_nat (n p : nat) : (p < n)%nat → py_norm n (Z.of_nat p) = Some p.
Proof.
  intros Hp. unfold py_norm. cbv zeta.
  rewrite (bool_decide_eq_false_2 (Z.of_nat p < 0)) by lia.
  rewrite bool_decide_eq_true_2 by lia. by rewrite Nat2Z.id.
Qed.

Lemma list_getitem_nat {A} (xs : list A) (p : nat) (x : A) :
  xs !! p = Some x → list_getitem xs (Z.of_nat p) = inr x.
Proof.
  intros Hx. unfold list_getitem, py_index.
  rewrite py_norm_nat by (by eapply lookup_lt_Some). simpl. by rewrite Hx.
Qed.

(** Reading the entries at positions that all exist gives exactly those
    entries, in the order of the positions. *)
Lemma mapM_getitem_positions {A} (xs : list A) (ps : list nat) :
  Forall (λ p, (p < length xs)%nat) ps →
  ∃ es, mapM (λ p, list_getitem xs (Z.of_nat p)) ps = inr es ∧
        Forall2 (λ p e, xs !! p = Some e) ps es.
Proof.
  induction 1 as [|p ps Hp _ [es [Hes Hall]]].
  - exists []. by split.
  - apply lookup_lt_is_Some_2 in Hp as [x Hx].
    exists (x :: es). split; [|by constructor].
    simpl. rewrite (list_getitem_nat _ _ _ Hx). simpl. by rewrite Hes.
Qed.

Lemma filter_ext_in {A} (P1 P2 : A → Prop)
    `{!∀ x, Decision (P1 x), !∀ x, Decision (P2 x)} (l : list A) :
  (∀ x, x ∈ l → P1 x ↔ P2 x) → filter P1 l = filter P2 l.
Proof.
  induction l as [|a l IH]; intros Hiff; [done|].
  rewrite !filter_cons.
  rewrite IH by (intros x Hx; apply Hiff; by right).
  destruct (decide (P1 a)) as [H1|H1], (decide (P2 a)) as [H2|H2];
    try done; exfalso; apply (Hiff a) in H1 || apply (Hiff a) in H2;
    try done; left.
Qed.

(** The positions of a mask with a given flag. *)
Lemma enumerate_filter_fst (flags : list bool) (b : bool) :
  (filter (λ ie, ie.2 = b) (enumerate flags)).*1
  = filter (λ i, flags !! i = Some b) (seq 0 (length flags)).
Proof.
  induction flags as [|c flags IH] using rev_ind; [done|].
  rewrite enumerate_snoc, filter_app, fmap_app, IH.
  rewrite length_app. simpl. rewrite Nat.add_1_r, seq_S, filter_app. simpl.
  f_equal.
  - apply filter_ext_in. intros i Hi%elem_of_seq.
    by rewrite lookup_app_l by lia.
  - rewrite !filter_cons, !filter_nil. simpl.
    rewrite lookup_app_r by lia. rewrite Nat.sub_diag. simpl.
    destruct (decide (c = b)) as [->|Hne].
    + by rewrite decide_True.
    + by rewrite decide_False by congruence.
Qed.

Lemma flagged_snoc (flags : list bool) (b c : bool) :
  filter (λ i, (flags ++ [c]) !! i = Some b) (seq 0 (length (flags ++ [c])))
  = filter (λ i, flags !! i = Some b) (seq 0 (length flags))
    ++ (if decide (c = b) then [length flags] else []).
Proof.
  rewrite length_app. simpl. rewrite Nat.add_1_r, seq_S, filter_app. simpl.
  f_equal.
  - apply filter_ext_in. intros i Hi%elem_of_seq.
    by rewrite lookup_app_l by lia.
  - rewrite filter_cons, filter_nil. rewrite lookup_app_r by lia.
    rewrite Nat.sub_diag. simpl.
    destruct (decide (c = b)) as [->|Hne].
    + by rewrite decide_True.
    + by rewrite decide_False by congruence.
Qed.

Lemma flags_positions_lt (flags : list bool) (b : bool) :
  Forall (λ p, (p < length flags)%nat)
    (filter (λ i, flags !! i = Some b) (seq 0 (length flags))).
Proof.
  apply Forall_forall. intros p [_ Hp%elem_of_seq]%list_elem_of_filter. lia.
Qed.

(** ** Masks *)

Lemma length_astype_bool (a : list npval) : length (astype_bool a) = length a.
Proof. unfold astype_bool. apply length_fmap. Qed.

Lemma filter_once_nil_r {A} (xs : list A) : filter_once xs [] = [].
Proof. by destruct xs. Qed.

Lemma filter_once_snoc {A} (xs : list A) (flags : list bool) (c : bool) (x : A) :
  xs !! length flags = Some x →
  filter_once xs (flags ++ [c])
  = filter_once xs flags ++ (if c then [] else [x]).
Proof.
  revert xs. induction flags as [|b flags IH]; intros [|y xs] Hx; try done.
  - simpl in *. simplify_eq. rewrite filter_once_nil_r. by destruct c.
  - simpl in *. rewrite (IH _ Hx). by destruct b.
Qed.

Lemma filter_once_take {A} (xs : list A) (flags : list bool) :
  filter_once (take (length flags) xs) flags = filter_once xs flags.
Proof.
  revert flags. induction xs as [|x xs IH]; intros [|b flags]; try done.
  simpl. rewrite IH. done.
Qed.

Lemma filter_once_length {A} (xs : list A) (flags : list bool) :
  (length (filter_once xs flags) ≤ length flags)%nat.
Proof.
  revert flags. induction xs as [|x xs IH]; intros [|b flags]; simpl; try lia.
  specialize (IH flags). destruct b; simpl; lia.
Qed.

(** The single filter pass keeps exactly the entries at the unflagged
    positions, in increasing order of position. *)
Lemma filter_once_positions {A} (xs : list A) (flags : list bool) :
  (length flags ≤ length xs)%nat →
  Forall2 (λ p e, xs !! p = Some e) (unflagged flags) (filter_once xs flags).
Proof.
  unfold unflagged.
  induction flags as [|c flags IH] using rev_ind; intros Hlen.
  - rewrite filter_once_nil_r. constructor.
  - rewrite length_app in Hlen. simpl in Hlen.
    destruct (lookup_lt_is_Some_2 xs (length flags)) as [x Hx]; [lia|].
    rewrite flagged_snoc, (filter_once_snoc _ _ _ _ Hx).
    apply Forall2_app; [apply IH; lia|].
    destruct c; simpl; [constructor|]. by repeat constructor.
Qed.

Lemma Forall2_lookup_functional {A} (xs : list A) (ps : list nat) (es es' : list A) :
  Forall2 (λ p e, xs !! p = Some e) ps es →
  Forall2 (λ p e, xs !! p = Some e) ps es' → es = es'.
Proof.
  intros H. revert es'. induction H as [|p e ps es Hp _ IH]; intros es' H'.
  - by inv H'.
  - inv H'. f_equal; eauto; congruence.
Qed.

(** The comprehension of [__delitem__] for an array key. *)
Lemma delitem_mask_plist (xs : list MetaParticle) (a : list npval) :
  (length a ≤ length xs)%nat →
  delitem_plist xs (KArray a) = inr (filter_once xs (astype_bool a)).
Proof.
  intros Hlen. simpl.
  rewrite (mapM_result_fmap fst (λ p, list_getitem xs (Z.of_nat p))).
  rewrite enumerate_filter_fst.
  destruct (mapM_getitem_positions xs
              (filter (λ i, astype_bool a !! i = Some false)
                 (seq 0 (length (astype_bool a))))) as [es [-> Hes]].
  - eapply Forall_impl; [apply flags_positions_lt|].
    simpl. intros p. rewrite length_astype_bool. lia.
  - f_equal. eapply Forall2_lookup_functional; [exact Hes|].
    apply filter_once_positions. by rewrite length_astype_bool.
Qed.

Lemma delitem_eq (σ : store) self key :
  __delitem__ self key σ =
  match delitem_plist (σ !!! plist self) key with
  | inl e => (σ, inl e)
  | inr xs' => (<[plist self := xs']> σ, inr tt)
  end.
Proof. unfold __delitem__. run. by destruct delitem_plist. Qed.

(** ** Integers and booleans in an iterable key *)

Lemma filter_all {A} (P : A → Prop) `{!∀ x, Decision (P x)} (l : list A) :
  (∀ x, x ∈ l → P x) → filter P l = l.
Proof.
  induction l as [|a l IH]; intros Hall; [done|].
  rewrite filter_cons_True by (apply Hall; left).
  f_equal. apply IH. intros x Hx. apply Hall. by right.
Qed.

Lemma in_to_remove_ints (idx : nat) (ints : list Z) :
  in_to_remove idx (IInt <$> ints) = false ↔ Z.of_nat idx ∉ ints.
Proof.
  unfold in_to_remove. rewrite bool_decide_eq_false.
  rewrite list_elem_of_fmap. split.
  - intros Hn Hin. apply Hn. by exists (Z.of_nat idx).
  - intros Hn [i [[= <-] Hin]]. done.
Qed.

Lemma astype_bool_NBool (flags : list bool) :
  astype_bool (NBool <$> flags) = flags.
Proof.
  unfold astype_bool. induction flags as [|b flags IH]; [done|].
  csimpl. by f_equal.
Qed.

Lemma unmask_bools (nmap : gmap string nat) (flags : list bool) :
  mapM (_unmask_index nmap) (ABool <$> flags)
  = inr (IInt <$> (int_of_bool <$> flags)).
Proof.
  apply mapM_result_inr. induction flags; csimpl; constructor; done.
Qed.

Lemma int_of_bool_elem (p : nat) (flags : list bool) :
  Z.of_nat p ∈ int_of_bool <$> flags
  ↔ (p = 0%nat ∧ false ∈ flags) ∨ (p = 1%nat ∧ true ∈ flags).
Proof.
  rewrite list_elem_of_fmap. split.
  - intros [[] [Hp Hin]]; simpl in Hp; [right|left]; (split; [lia|done]).
  - intros [[-> Hin]|[-> Hin]]; [by exists false|by exists true].
Qed.

Lemma without_first_two_positions {A} (xs : list A) (d0 d1 : bool) :
  Forall2 (λ p e, xs !! p = Some e)
    (filter (λ p, (p = 0%nat → d0 = false) ∧ (p = 1%nat → d1 = false))
       (seq 0 (length xs)))
    (without_first_two xs d0 d1).
Proof.
  assert (∀ (k : nat) (rest : list A) (pre : list A),
            length pre = k →
            Forall2 (λ p e, (pre ++ rest) !! p = Some e)
              (seq k (length rest)) rest) as Hrest.
  { intros k rest pre Hk. apply Forall2_same_length_lookup_2.
    - by rewrite length_seq.
    - intros i p e Hp He. apply lookup_seq in Hp as [-> _].
      rewrite lookup_app_r by lia. by replace (k + i - length pre)%nat with i by lia. }
  unfold without_first_two.
  destruct xs as [|x [|y rest]].
  - simpl. destruct d0, d1; constructor.
  - simpl seq. rewrite filter_cons.
    destruct (decide _) as [[H0 _]|Hn].
    + rewrite H0 by done. simpl. rewrite filter_nil.
      destruct d1; by repeat constructor.
    + destruct d0; [|exfalso; apply Hn; split; [done|lia]].
      simpl. rewrite filter_nil. destruct d1; constructor.
  - change (seq 0 (length (x :: y :: rest)))
      with (0%nat :: 1%nat :: seq 2 (length rest)).
    assert (filter (λ p, (p = 0%nat → d0 = false) ∧ (p = 1%nat → d1 = false))
              (seq 2 (length rest)) = seq 2 (length rest)) as Htail.
    { apply filter_all. intros p Hp%elem_of_seq. lia. }
    rewrite !filter_cons, Htail.
    change (drop 2 (x :: y :: rest)) with rest.
    change (take 1 (drop 1 (x :: y :: rest))) with [y].
    change (take 1 (x :: y :: rest)) with [x].
    pose proof (Hrest 2%nat rest [x; y] eq_refl) as Htl.
    destruct (decide _) as [[H0 _]|Hn0], (decide _) as [[_ H1]|Hn1].
    + rewrite H0, H1 by done. by repeat constructor.
    + destruct d1; [|exfalso; apply Hn1; split; [lia|done]].
      rewrite H0 by done. by repeat constructor.
    + destruct d0; [|exfalso; apply Hn0; split; [done|lia]].
      rewrite H1 by done. by repeat constructor.
    + destruct d0; [|exfalso; apply Hn0; split; [done|lia]].
      destruct d1; [|exfalso; apply Hn1; split; [lia|done]].
      done.
Qed.

(** The comprehension of [__delitem__] for a list of booleans. *)
Lemma delitem_bools_plist (xs : list MetaParticle) (flags : list bool) :
  delitem_plist xs (KIter (ABool <$> flags))
  = inr (without_first_two xs (bool_decide (false ∈ flags))
           (bool_decide (true ∈ flags))).
Proof.
  unfold delitem_plist. cbv zeta. rewrite unmask_bools.
  cbn [mbind result_bind].
  assert (filter (λ idx, in_to_remove idx (IInt <$> (int_of_bool <$> flags))
                         = false) (seq 0 (length xs))
          = filter (λ p, (p = 0%nat → bool_decide (false ∈ flags) = false) ∧
                         (p = 1%nat → bool_decide (true ∈ flags) = false))
              (seq 0 (length xs))) as ->.
  { apply list_filter_iff. intros p.
    rewrite in_to_remove_ints, int_of_bool_elem, !bool_decide_eq_false.
    tauto. }
  destruct (mapM_getitem_positions xs
              (filter (λ p, (p = 0%nat → bool_decide (false ∈ flags) = false) ∧
                            (p = 1%nat → bool_decide (true ∈ flags) = false))
                 (seq 0 (length xs)))) as [es [-> Hes]].
  - apply Forall_forall.
    intros p [_ Hp%elem_of_seq]%list_elem_of_filter. lia.
  - f_equal. eapply Forall2_lookup_functional; [exact Hes|].
    apply without_first_two_positions.
Qed.

(** A boolean mask given as a plain list is not read as a mask: deleting
    through [[True, False, True]] removes the entries at the positions 1
    and 0, not those at the flagged positions 0 and 2. *)
Lemma delitem_boolean_list_is_not_a_mask :
  sample_store !!! plist pm_a
  = [entry "a" circle; entry "x" circle; entry "b" dimer] ∧
  __delitem__ pm_a (KIter [ABool true; ABool false; ABool true]) sample_store
  = (<[plist pm_a := [entry "b" dimer]]> sample_store, inr tt) ∧
  filter_once (sample_store !!! plist pm_a) [true; false; true]
  = [entry "x" circle] ∧
  __delitem__ pm_a (KIter [ABool true; ABool false; ABool true]) sample_store
  ≠ (<[plist pm_a := filter_once (sample_store !!! plist pm_a)
                       [true; false; true]]> sample_store, inr tt).
Proof.
  split; [reflexivity|]. split; [reflexivity|]. split; [reflexivity|].
  intros Heq. apply (f_equal (λ r, r.1 !!! plist pm_a)) in Heq.
  vm_compute in Heq. discriminate.
Qed.

(** C4, as the code has it.  Deleting through a boolean array ([np.ndarray])
    as long as the manager rebuilds the list in one filter pass: the
    entries at the flagged positions go, the entries at the other
    positions stay in their order.  That is not what deleting the
    flagged positions one after the other, each by its raw position,
    gives.  A list of booleans is no mask: its elements are compared, as
    the integers 1 and 0, with the positions, so that position 1 goes
    when the list holds a [True], position 0 when it holds a [False],
    and every entry from position 2 on stays. *)
Theorem delitem_mask_filters_once (σ : store) (self : ParticleManager)
    (a : list npval) (flags : list bool) :
  let xs := σ !!! plist self in
  let mask := astype_bool a in
  length a = length xs →
  __delitem__ self (KArray a) σ
  = (<[plist self := filter_once xs mask]> σ, inr tt) ∧
  Forall2 (λ p e, xs !! p = Some e) (unflagged mask) (filter_once xs mask) ∧
  __delitem__ self (KIter (ABool <$> flags)) σ
  = (<[plist self := without_first_two xs (bool_decide (false ∈ flags))
                       (bool_decide (true ∈ flags))]> σ, inr tt) ∧
  ∃ (ys : list MetaParticle) (marks : list bool),
    length marks = length ys ∧
    filter_once ys marks ≠ repeated_delete ys (flagged marks).
Proof.
  intros xs mask Hlen. split; [|split; [|split]].
  - rewrite delitem_eq. fold xs. rewrite delitem_mask_plist by lia. done.
  - apply filter_once_positions. unfold mask. rewrite length_astype_bool. lia.
  - rewrite delitem_eq. fold xs. by rewrite delitem_bools_plist.
  - exists [entry "a" circle; entry "b" circle; entry "c" circle],
      [true; true; false].
    split; [done|]. vm_compute. discriminate.
Qed.

Lemma delitem_mask_filters_once_witness :
  __delitem__ pm_a (KArray [NBool true; NBool false; NBool true]) sample_store
  = (<[1%positive := [entry "x" circle]]> sample_store, inr tt).
Proof.
  apply (delitem_mask_filters_once sample_store pm_a
           [NBool true; NBool false; NBool true] []).
  reflexivity.
Defined.

(** C9. With a boolean array shorter than the manager, of length [m],
    [__delitem__] keeps only the unflagged entries among the first [m]:
    the flagged ones go, and no entry at a position from [m] on is kept,
    although no flag stands for it. *)
Theorem delitem_short_mask_truncates (σ : store) (self : ParticleManager)
    (mask : list bool) :
  let xs := σ !!! plist self in
  let m := length mask in
  (m < length xs)%nat →
  __delitem__ self (KArray (NBool <$> mask)) σ
  = (<[plist self := filter_once (take m xs) mask]> σ, inr tt) ∧
  Forall2 (λ p e, xs !! p = Some e)
    (unflagged mask) (filter_once (take m xs) mask) ∧
  Forall (λ p, (p < m)%nat) (unflagged mask) ∧
  (length (filter_once (take m xs) mask) ≤ m)%nat.
Proof.
  intros xs m Hlen.
  assert (filter_once (take m xs) mask = filter_once xs mask) as ->
    by apply filter_once_take.
  split; [|split; [|split]].
  - rewrite delitem_eq. fold xs.
    rewrite delitem_mask_plist by (rewrite length_fmap; fold m; lia).
    by rewrite astype_bool_NBool.
  - apply filter_once_positions. fold m. lia.
  - apply flags_positions_lt.
  - apply filter_once_length.
Qed.

Lemma delitem_short_mask_truncates_witness :
  __delitem__ pm_a (KArray (NBool <$> [true; false])) sample_store
  = (<[1%positive := [entry "x" circle]]> sample_store, inr tt).
Proof.
  apply (delitem_short_mask_truncates sample_store pm_a [true; false]).
  vm_compute. lia.
Defined.

(** ** Slices *)

Lemma slice_bound_range (n step dflt : Z) (b : option Z) :
  0 ≤ n →
  (if bool_decide (step < 0) then -1 ≤ dflt ≤ n - 1 else 0 ≤ dflt ≤ n) →
  if bool_decide (step < 0)
  then -1 ≤ slice_bound n step dflt b ≤ n - 1
  else 0 ≤ slice_bound n step dflt b ≤ n.
Proof.
  intros Hn Hd. unfold slice_bound. destruct b as [b|]; [|done].
  cbv zeta. repeat case_bool_decide; lia.
Qed.

(** A slice only visits positions of the list. *)
Lemma slice_indices_lt (n : nat) (a b c : option Z) (ks : list nat) :
  slice_indices n a b c = inr ks → Forall (λ k, (k < n)%nat) ks.
Proof.
  unfold slice_indices. cbv zeta.
  set (step := default 1 c).
  case_bool_decide as Hstep; [done|].
  intros [= <-].
  set (start := slice_bound _ _ _ a).
  set (stop := slice_bound _ _ _ b).
  assert (if bool_decide (step < 0) then -1 ≤ start ≤ Z.of_nat n - 1
          else 0 ≤ start ≤ Z.of_nat n) as Hstart.
  { apply slice_bound_range; [lia|]. case_bool_decide; lia. }
  assert (if bool_decide (step < 0) then -1 ≤ stop ≤ Z.of_nat n - 1
          else 0 ≤ stop ≤ Z.of_nat n) as Hstop.
  { apply slice_bound_range; [lia|]. case_bool_decide; lia. }
  apply Forall_fmap, Forall_forall. intros k Hk%elem_of_seqZ. simpl.
  destruct (bool_decide (step < 0)) eqn:Hneg.
  - apply bool_decide_eq_true in Hneg.
    case_bool_decide as Hlt; [|lia].
    pose proof (Z.mul_div_le (start - stop - 1) (- step)) as Hdiv.
    nia.
  - apply bool_decide_eq_false in Hneg.
    case_bool_decide as Hlt; [|lia].
    pose proof (Z.mul_div_le (stop - start - 1) step) as Hdiv.
    nia.
Qed.

Lemma omap_lookup_positions {A} (xs : list A) (ps : list nat) :
  Forall (λ p, (p < length xs)%nat) ps →
  Forall2 (λ p e, xs !! p = Some e) ps (omap (λ p, xs !! p) ps).
Proof.
  induction 1 as [|p ps Hp _ IH]; [constructor|].
  apply lookup_lt_is_Some_2 in Hp as [x Hx].
  simpl. rewrite Hx. by constructor.
Qed.

(** The closed form [slice_indices] computes visits the positions the
    walk of the language reference visits. *)
Lemma slice_walk_up (fuel : nat) (i j k : Z) :
  0 < k → j - i ≤ Z.of_nat fuel →
  (λ t, Z.to_nat (i + t * k))
    <$> seqZ 0 (if bool_decide (i < j) then (j - i - 1) `div` k + 1 else 0)
  = slice_walk fuel i j k.
Proof.
  intros Hk. revert i. induction fuel as [|fuel IH]; intros i Hfuel.
  - rewrite bool_decide_eq_false_2 by lia. done.
  - cbn [slice_walk]. destruct (decide (i < j)) as [Hij|Hij].
    + rewrite (bool_decide_eq_true_2 (i < j)) by done.
      rewrite (bool_decide_eq_true_2 (_ ∨ _)) by lia.
      pose proof (Z.div_pos (j - i - 1) k ltac:(lia) Hk) as Hq.
      rewrite seqZ_cons by lia. csimpl. f_equal; [f_equal; lia|].
      rewrite <-(IH (i + k)) by lia.
      replace (Z.succ 0) with (1 + 0) by lia.
      rewrite <-fmap_add_seqZ, <-list_fmap_compose.
      replace (Z.pred ((j - i - 1) `div` k + 1))
        with (if bool_decide (i + k < j)
              then (j - (i + k) - 1) `div` k + 1 else 0).
      * apply list_fmap_ext. intros _ t _. simpl. f_equal. lia.
      * case_bool_decide.
        -- replace (j - (i + k) - 1) with ((j - i - 1) + (-1) * k) by lia.
           rewrite Z.div_add by lia. lia.
        -- rewrite (Z.div_small (j - i - 1)) by lia. lia.
    + rewrite (bool_decide_eq_false_2 (i < j)) by done.
      by rewrite (bool_decide_eq_false_2 (_ ∨ _)) by lia.
Qed.

Lemma slice_walk_down (fuel : nat) (i j k : Z) :
  k < 0 → i - j ≤ Z.of_nat fuel →
  (λ t, Z.to_nat (i + t * k))
    <$> seqZ 0 (if bool_decide (j < i) then (i - j - 1) `div` (- k) + 1 else 0)
  = slice_walk fuel i j k.
Proof.
  intros Hk. revert i. induction fuel as [|fuel IH]; intros i Hfuel.
  - rewrite bool_decide_eq_false_2 by lia. done.
  - cbn [slice_walk]. destruct (decide (j < i)) as [Hij|Hij].
    + rewrite (bool_decide_eq_true_2 (j < i)) by done.
      rewrite (bool_decide_eq_true_2 (_ ∨ _)) by lia.
      pose proof (Z.div_pos (i - j - 1) (- k) ltac:(lia) ltac:(lia)) as Hq.
      rewrite seqZ_cons by lia. csimpl. f_equal; [f_equal; lia|].
      rewrite <-(IH (i + k)) by lia.
      replace (Z.succ 0) with (1 + 0) by lia.
      rewrite <-fmap_add_seqZ, <-list_fmap_compose.
      replace (Z.pred ((i - j - 1) `div` (- k) + 1))
        with (if bool_decide (j < i + k)
              then (i + k - j - 1) `div` (- k) + 1 else 0).
      * apply list_fmap_ext. intros _ t _. simpl. f_equal. lia.
      * case_bool_decide.
        -- replace (i + k - j - 1) with ((i - j - 1) + (-1) * (- k)) by lia.
           rewrite Z.div_add by lia. lia.
        -- rewrite (Z.div_small (i - j - 1)) by lia. lia.
    + rewrite (bool_decide_eq_false_2 (j < i)) by done.
      by rewrite (bool_decide_eq_false_2 (_ ∨ _)) by lia.
Qed.

Lemma slice_bound_place (n k d : Z) (b : option Z) :
  0 ≤ n →
  slice_bound n k d b
  = from_option
      (λ b, (if bool_decide (k < 0) then -1 else 0)
            `max` ((if bool_decide (b < 0) then b + n else b)
                   `min` (if bool_decide (k < 0) then n - 1 else n)))
      d b.
Proof.
  intros Hn. unfold slice_bound. destruct b as [b|]; [|done].
  cbv zeta. simpl. repeat case_bool_decide; lia.
Qed.

Lemma slice_indices_positions (n : nat) (a b c : option Z) :
  slice_indices n a b c
  = match slice_positions n a b c with
    | Some ks => inr ks
    | None => inl ValueError
    end.
Proof.
  unfold slice_indices, slice_positions. cbv zeta.
  set (k := default 1 c).
  case_bool_decide as Hk0; [done|].
  rewrite !(slice_bound_place (Z.of_nat n)) by lia.
  set (place := λ b0 : Z,
         (if bool_decide (k < 0) then -1 else 0)
         `max` ((if bool_decide (b0 < 0) then b0 + Z.of_nat n else b0)
                `min` (if bool_decide (k < 0) then Z.of_nat n - 1
                       else Z.of_nat n))).
  destruct (decide (k < 0)) as [Hk|Hk].
  - rewrite !(bool_decide_eq_true_2 (k < 0)) by done.
    assert (∀ d o, -1 ≤ d ≤ Z.of_nat n - 1 →
              -1 ≤ from_option place d o ≤ Z.of_nat n - 1) as Hrange.
    { intros d [o|] Hd; [|done]. unfold place. simpl.
      rewrite !(bool_decide_eq_true_2 (k < 0)) by done. lia. }
    pose proof (Hrange (Z.of_nat n - 1) a ltac:(lia)).
    pose proof (Hrange (-1) b ltac:(lia)).
    f_equal. apply slice_walk_down; lia.
  - rewrite !(bool_decide_eq_false_2 (k < 0)) by done.
    assert (∀ d o, 0 ≤ d ≤ Z.of_nat n →
              0 ≤ from_option place d o ≤ Z.of_nat n) as Hrange.
    { intros d [o|] Hd; [|done]. unfold place. simpl.
      rewrite !(bool_decide_eq_false_2 (k < 0)) by done. lia. }
    pose proof (Hrange 0 a ltac:(lia)).
    pose proof (Hrange (Z.of_nat n) b ltac:(lia)).
    f_equal. apply slice_walk_up; lia.
Qed.

(** ** [__getitem__] *)

Lemma py_norm_lt (n : nat) (i : Z) (k : nat) :
  py_norm n i = Some k → (k < n)%nat.
Proof.
  unfold py_norm. cbv zeta. repeat case_bool_decide; intros [= <-]; lia.
Qed.

Lemma getitem_eq (σ : store) self key :
  __getitem__ self key σ =
  match getitem_plout (σ !!! plist self) key with
  | inl e => (σ, inl e)
  | inr es =>
      (<[fresh (dom σ) := es]> σ,
       inr (mkManager (fresh (dom σ)) (fastnames self)))
  end.
Proof. unfold __getitem__. run. by destruct getitem_plout. Qed.

(** The list subscript and the name index of the code find the positions
    the specification means. *)
Lemma spec_position_py_norm (n : nat) (i : Z) :
  spec_position n i = py_norm n i.
Proof.
  unfold spec_position, py_norm. cbv zeta.
  repeat case_bool_decide; try lia; try done; f_equal; lia.
Qed.

Lemma name_position_namemap (xs : list MetaParticle) (s : string) :
  name_position xs s = namemap_of xs !! s.
Proof.
  unfold name_position.
  induction xs as [|x xs IH] using rev_ind; [done|].
  rewrite namemap_of_snoc, enumerate_snoc, foldl_app. simpl.
  destruct (decide (name x = s)) as [->|Hne].
  - by rewrite lookup_insert_eq.
  - by rewrite lookup_insert_ne.
Qed.

Lemma spec_resolve_one_eq (xs : list MetaParticle) (a : atom) :
  spec_resolve_one xs a
  = match a with
    | AInt i => py_norm (length xs) i
    | AStr s => namemap_of xs !! s
    | AMeta m => namemap_of xs !! name m
    | ABool _ | ASlice _ _ _ | AOther _ => None
    end.
Proof.
  destruct a; simpl; try done;
    by rewrite ?spec_position_py_norm, ?name_position_namemap.
Qed.

(** A key that stands for one position reads the entry there. *)
Lemma subscript_one (xs : list MetaParticle) (a : atom) (p : nat) :
  spec_resolve_one xs a = Some p →
  ∃ x, (ix ← _unmask_index (namemap_of xs) a; list_subscript xs ix)
       = inr (One x) ∧ xs !! p = Some x.
Proof.
  rewrite spec_resolve_one_eq.
  assert (∀ s, namemap_of xs !! s = Some p →
            ∃ x, (ix ← (k ← dict_get (namemap_of xs) s;
                        mret (IInt (Z.of_nat k))); list_subscript xs ix)
                 = inr (One x) ∧ xs !! p = Some x) as Hname.
  { intros s Hs. pose proof (namemap_of_Some _ _ _ Hs) as Hk.
    unfold names_of in Hk. rewrite list_lookup_fmap in Hk.
    destruct (xs !! p) as [x|] eqn:Hx; [|done].
    exists x. split; [|done].
    unfold dict_get. rewrite Hs. simpl.
    by rewrite (list_getitem_nat _ _ _ Hx). }
  destruct a as [i|bb|? ? ?|s|m|t]; simpl; try done; eauto.
  intros Hp. pose proof (py_norm_lt _ _ _ Hp) as Hlt.
  apply lookup_lt_is_Some_2 in Hlt as [x Hx].
  exists x. split; [|done].
  unfold list_getitem, py_index. rewrite Hp. simpl. by rewrite Hx.
Qed.

Lemma as_entries_One (es : list MetaParticle) :
  as_entries (One <$> es) = inr es.
Proof.
  unfold as_entries. apply mapM_result_inr.
  induction es; constructor; done.
Qed.

Lemma getitem_plout_atom (xs : list MetaParticle) (a : atom) :
  getitem_plout xs (KAtom a)
  = (plout ← (ix ← _unmask_index (namemap_of xs) a; list_subscript xs ix);
     mret (match plout with One m => [m] | Many ms => ms end)).
Proof. simpl. by destruct (_unmask_index _ a). Qed.

(** An iterable whose elements each stand for one position reads the
    entries at those positions, in the order of the elements. *)
Lemma getitem_plout_iter (xs : list MetaParticle) (ks : list atom)
    (ps : list nat) :
  mapM (spec_resolve_one xs) ks = Some ps →
  ∃ es, getitem_plout xs (KIter ks) = inr es ∧
        Forall2 (λ p e, xs !! p = Some e) ps es.
Proof.
  intros Hps%mapM_Some. simpl.
  assert (∃ es, Forall2 (λ a x,
            (ix ← _unmask_index (namemap_of xs) a; list_subscript xs ix)
            = inr (One x)) ks es ∧
            Forall2 (λ p e, xs !! p = Some e) ps es) as [es [Hes Hall]].
  { induction Hps as [|a p ks ps Hp _ [es [Hes Hall]]].
    - exists []. split; constructor.
    - destruct (subscript_one xs a p Hp) as [x [Hx Hl]].
      exists (x :: es). split; by constructor. }
  exists es. split; [|done].
  rewrite (mapM_result_inr _ ks (One <$> es)).
  - simpl. apply as_entries_One.
  - by apply Forall2_fmap_r.
Qed.

(** An array no longer than the manager reads the entries at the
    positions where its conversion to booleans is true. *)
Lemma getitem_plout_array (xs : list MetaParticle) (a : list npval) :
  (length a ≤ length xs)%nat →
  ∃ es, getitem_plout xs (KArray a) = inr es ∧
        Forall2 (λ p e, xs !! p = Some e) (flagged (astype_bool a)) es.
Proof.
  intros Hlen. simpl.
  rewrite (mapM_result_fmap fst (λ p, list_getitem xs (Z.of_nat p))).
  rewrite enumerate_filter_fst.
  apply mapM_getitem_positions.
  eapply Forall_impl; [apply flags_positions_lt|].
  simpl. intros p. rewrite length_astype_bool. lia.
Qed.


Lemma array_mask_Some (a : list npval) (flags : list bool) :
  array_mask a = Some flags → a = NBool <$> flags.
Proof.
  unfold array_mask. intros H%mapM_Some.
  induction H as [|v b a flags Hv _ IH]; [done|].
  destruct v; simplify_eq. csimpl. by f_equal.
Qed.


(** The list [__getitem__] builds for a valid key that is neither a list
    of booleans nor an array of integers: the entries at the positions
    the key resolves to, in resolution order. *)
Lemma getitem_plout_resolved (xs : list MetaParticle) (key : pykey)
    (ps : list nat) :
  spec_resolve xs key = Some ps →
  ¬ boolean_list key → ¬ integer_array key →
  ∃ es, getitem_plout xs key = inr es ∧
        Forall2 (λ p e, xs !! p = Some e) ps es.
Proof.
  destruct key as [a|a|ks].
  - intros Hres _ _. rewrite getitem_plout_atom.
    assert (∀ a', (k ← spec_resolve_one xs a'; Some [k]) = Some ps →
              ∃ es, (plout ← (ix ← _unmask_index (namemap_of xs) a';
                              list_subscript xs ix);
                     mret (match plout with One m => [m] | Many ms => ms end))
                    = inr es ∧
                    Forall2 (λ p e, xs !! p = Some e) ps es) as Hone.
    { intros a' Ha'.
      destruct (spec_resolve_one xs a') as [p|] eqn:Hp; simpl in Ha'; [|done].
      simplify_eq.
      destruct (subscript_one xs a' p Hp) as [x [Hx Hl]].
      exists [x]. split; [by rewrite Hx|by repeat constructor]. }
    destruct a as [i|bb|a b c|s|m|t]; try (by apply Hone).
    cbn [spec_resolve] in Hres.
    simpl. rewrite slice_indices_positions, Hres. simpl.
    eexists. split; [done|].
    apply omap_lookup_positions.
    apply (slice_indices_lt (length xs) a b c).
    by rewrite slice_indices_positions, Hres.
  - intros Hres _ Hints. destruct a as [|v a].
    + simpl in Hres. simplify_eq. exists []. by split.
    + cbn [spec_resolve] in Hres.
      destruct (array_mask (v :: a)) as [flags|] eqn:Hmask.
      * unfold spec_resolve_mask in Hres.
        case_bool_decide as Hlen; [|done]. simplify_eq.
        apply array_mask_Some in Hmask.
        destruct (getitem_plout_array xs (v :: a)) as [es [Hes Hall]].
        { rewrite Hmask, length_fmap. lia. }
        exists es. split; [done|].
        by rewrite Hmask, astype_bool_NBool in Hall.
      * destruct (array_ints (v :: a)) as [ints|] eqn:Hi; [|done].
        exfalso. apply Hints. unfold integer_array. rewrite Hi. by eexists.
  - intros Hres Hbools _. destruct ks as [|k ks].
    + simpl in Hres. simplify_eq. exists []. by split.
    + cbn [spec_resolve] in Hres.
      destruct (as_mask (k :: ks)) as [flags|] eqn:Hmask.
      * exfalso. apply Hbools. unfold boolean_list. rewrite Hmask. by eexists.
      * by apply getitem_plout_iter.
Qed.




(** ** Merging and subtracting *)

Lemma alternate_particles_interleave {A} (xs ys : list A) :
  alternate_particles xs ys = interleave xs ys.
Proof.
  unfold alternate_particles. revert ys.
  induction xs as [|x xs IH]; intros [|y ys]; simpl; try done.
  - f_equal. induction ys as [|y' ys IH]; [done|]. simpl. by f_equal.
  - f_equal. etrans; [apply (IH [])|by destruct xs].
  - do 2 f_equal. apply IH.
Qed.

Lemma interleave_permutation {A} (xs ys : list A) :
  interleave xs ys ≡ₚ xs ++ ys.
Proof.
  revert ys. induction xs as [|x xs IH]; intros [|y ys]; simpl; try done.
  - by rewrite app_nil_r.
  - rewrite IH. constructor. by rewrite Permutation_middle.
Qed.

Lemma shared_names_nil (n1 n2 : list string) :
  shared_names n1 n2 = [] ↔ ∀ nm, nm ∈ n1 → nm ∉ n2.
Proof.
  unfold shared_names. split.
  - intros Hnil nm H1 H2.
    assert (nm ∈ filter (λ nm, nm ∈ n2) n1) as Hin
      by (by apply list_elem_of_filter).
    rewrite Hnil in Hin. by apply not_elem_of_nil in Hin.
  - intros Hdis. induction n1 as [|nm n1 IH]; [done|].
    rewrite filter_cons_False by (apply Hdis; left).
    apply IH. intros nm' H'. apply Hdis. by right.
Qed.

Lemma not_shared_nil (xs : list MetaParticle) : not_shared [] xs = xs.
Proof.
  unfold not_shared. induction xs as [|x xs IH]; [done|].
  rewrite filter_cons_True by apply not_elem_of_nil. by f_equal.
Qed.

(** What [concat_particles] and [subtract_particles] do, case by case.
    Both copy their first operand before they read the second, so the
    second is taken to be a manager that exists: its list is in the
    store, and the new list of the copy is another one. *)
Lemma lookup_total_insert_same (σ : store) (l k : loc) :
  (<[l := σ !!! k]> σ) !!! k = σ !!! k.
Proof.
  destruct (decide (l = k)) as [->|Hne].
  - apply lookup_total_insert_eq.
  - by apply lookup_total_insert_ne.
Qed.

Lemma concat_particles_eq (σ : store) p1 p2 alternate overwrite :
  is_Some (σ !! plist p2) →
  concat_particles p1 p2 alternate overwrite σ =
  let xa := σ !!! plist p1 in
  let xb := σ !!! plist p2 in
  let shared := shared_names (names_of xa) (names_of xb) in
  let l1 := fresh (dom σ) in
  if bool_decide (shared ≠ [] ∧ overwrite = false)
  then (<[l1 := xa]> σ, inl (ManagerError_duplicates (length shared)))
  else
    let xa' := not_shared shared xa in
    let σ1 := <[l1 := xa']> σ in
    let pout := if alternate then alternate_particles xa' xb else xa' ++ xb in
    (<[fresh (dom σ1) := pout]> σ1, inr (mkManager (fresh (dom σ1)) false)).
Proof.
  intros Hb. unfold concat_particles. run.
  assert (fresh (dom σ) ≠ plist p2) as Hne by (by apply fresh_not_allocated).
  rewrite !lookup_total_insert_same.
  rewrite !(lookup_total_insert_ne σ (fresh (dom σ)) (plist p2)) by done.
  set (shared := shared_names _ _).
  case_bool_decide as Hsh.
  - rewrite bool_decide_eq_false_2 by (intros [? _]; done).
    rewrite Hsh, not_shared_nil.
    rewrite lookup_total_insert_eq, lookup_total_insert_ne by done.
    destruct alternate; simpl; [|done].
    by rewrite lookup_total_insert_eq, lookup_total_insert_ne.
  - destruct overwrite.
    + rewrite bool_decide_eq_false_2 by (intros [_ ?]; done).
      rewrite lookup_total_insert_same, insert_insert_eq.
      rewrite lookup_total_insert_eq, lookup_total_insert_ne by done.
      destruct alternate; simpl; [|done].
      by rewrite lookup_total_insert_eq, lookup_total_insert_ne.
    + by rewrite bool_decide_eq_true_2.
Qed.

Lemma subtract_particles_eq (σ : store) p1 p2 :
  is_Some (σ !! plist p2) →
  subtract_particles p1 p2 σ =
  let xa := σ !!! plist p1 in
  let shared := shared_names (names_of xa) (names_of (σ !!! plist p2)) in
  (<[fresh (dom σ) := not_shared shared xa]> σ,
   inr (mkManager (fresh (dom σ)) (fastnames p1))).
Proof.
  intros Hb. unfold subtract_particles. run.
  assert (fresh (dom σ) ≠ plist p2) as Hne by (by apply fresh_not_allocated).
  rewrite !lookup_total_insert_same.
  rewrite !(lookup_total_insert_ne σ (fresh (dom σ)) (plist p2)) by done.
  by rewrite insert_insert_eq.
Qed.

(** Allocating leaves every list there was as it was. *)
Lemma alloc_frame (σ : store) (x : list MetaParticle) (l : loc) :
  is_Some (σ !! l) → (<[fresh (dom σ) := x]> σ) !! l = σ !! l.
Proof. intros H. apply lookup_insert_ne. by apply fresh_not_allocated. Qed.

Lemma alloc_twice_frame (σ : store) (x y : list MetaParticle) (l : loc) :
  is_Some (σ !! l) →
  (<[fresh (dom (<[fresh (dom σ) := x]> σ)) := y]> (<[fresh (dom σ) := x]> σ))
    !! l = σ !! l.
Proof.
  intros H. rewrite alloc_frame; [by apply alloc_frame|].
  by rewrite alloc_frame.
Qed.

Lemma alloc_fresh (σ : store) : σ !! fresh (dom σ) = None.
Proof. apply not_elem_of_dom, is_fresh. Qed.

Lemma alloc_twice_fresh (σ : store) (x : list MetaParticle) :
  σ !! fresh (dom (<[fresh (dom σ) := x]> σ)) = None.
Proof.
  pose proof (alloc_fresh (<[fresh (dom σ) := x]> σ)) as H.
  destruct (decide (fresh (dom (<[fresh (dom σ) := x]> σ)) = fresh (dom σ)))
    as [Heq|Hne].
  - rewrite Heq in H at 1. by rewrite lookup_insert_eq in H.
  - by rewrite lookup_insert_ne in H.
Qed.

(** C7. Merging two managers without a common name, with [alternate] and
    [overwrite] both false, gives a manager whose length is the sum of
    the two lengths and whose names are those of the first followed by
    those of the second.  (The second manager's list is in the store.) *)
Theorem concat_disjoint_names_in_order (σ : store) (a b : ParticleManager) :
  let xa := σ !!! plist a in
  let xb := σ !!! plist b in
  is_Some (σ !! plist b) →
  (∀ nm, nm ∈ names_of xa → nm ∉ names_of xb) →
  ∃ σ' r,
    concat_particles a b false false σ = (σ', inr r) ∧
    __len__ r σ' = (σ', inr (length xa + length xb)%nat) ∧
    names r σ' = (σ', inr (names_of xa ++ names_of xb)).
Proof.
  intros xa xb Hb Hdis. apply shared_names_nil in Hdis.
  rewrite concat_particles_eq by done. fold xa xb. cbv zeta. rewrite Hdis.
  rewrite bool_decide_eq_false_2 by (intros [? _]; done).
  rewrite not_shared_nil.
  do 2 eexists. split; [done|]. run.
  rewrite lookup_total_insert_eq. unfold names_of.
  by rewrite length_app, fmap_app.
Qed.

Lemma concat_disjoint_names_in_order_witness :
  ∃ σ' r,
    concat_particles pm_a pm_b false false disjoint_store = (σ', inr r) ∧
    __len__ r σ' = (σ', inr 4%nat) ∧
    names r σ' = (σ', inr ["a"; "b"; "c"; "y"]).
Proof.
  apply (concat_disjoint_names_in_order disjoint_store pm_a pm_b).
  - by eexists.
  - apply shared_names_nil. reflexivity.
Defined.

(** C6. Merging with [alternate] when no name is common to both, be it
    from the start or once [overwrite] has pruned the copy of the first
    manager: the result interleaves the entries position by position,
    the first manager's first; it holds every entry of both, whatever
    their lengths, the rest of the longer one coming after the shorter
    is exhausted.  (The second manager's list is in the store; the two
    managers may be the same one.) *)
Theorem concat_alternate_interleaves (σ : store) (a b : ParticleManager)
    (overwrite : bool) :
  let xa := σ !!! plist a in
  let xb := σ !!! plist b in
  let shared := shared_names (names_of xa) (names_of xb) in
  let xa' := not_shared shared xa in
  is_Some (σ !! plist b) →
  shared = [] ∨ overwrite = true →
  ∃ σ' r,
    concat_particles a b true overwrite σ = (σ', inr r) ∧
    σ' !!! plist r = interleave xa' xb ∧
    interleave xa' xb ≡ₚ xa' ++ xb ∧
    length (σ' !!! plist r) = (length xa' + length xb)%nat.
Proof.
  intros xa xb shared xa' Hb Hcase.
  assert (∃ σ' r, concat_particles a b true overwrite σ = (σ', inr r) ∧
            σ' !!! plist r = interleave xa' xb) as (σ' & r & Hrun & Hr).
  { rewrite concat_particles_eq by done. fold xa xb shared. cbv zeta.
    rewrite bool_decide_eq_false_2
      by (intros [H1 H2]; destruct Hcase as [H|H];
          [by apply H1|by rewrite H in H2]).
    do 2 eexists. split; [done|]. cbn [plist].
    by rewrite lookup_total_insert_eq, alternate_particles_interleave. }
  exists σ', r. split; [done|]. split; [done|].
  split; [apply interleave_permutation|].
  by rewrite Hr, interleave_permutation, length_app.
Qed.

Lemma concat_alternate_interleaves_witness :
  ∃ σ' r,
    concat_particles pm_a pm_b true true sample_store = (σ', inr r) ∧
    σ' !!! plist r
    = [entry "a" circle; entry "x" dimer; entry "b" dimer; entry "c" circle] ∧
    [entry "a" circle; entry "x" dimer; entry "b" dimer; entry "c" circle]
    ≡ₚ [entry "a" circle; entry "b" dimer] ++ [entry "x" dimer; entry "c" circle] ∧
    length (σ' !!! plist r) = 4%nat.
Proof.
  apply (concat_alternate_interleaves sample_store pm_a pm_b true).
  - by eexists.
  - by right.
Defined.

(** ** The operands of merging and subtracting *)

(** C1.  [concat_particles] and [subtract_particles] work on a copy of
    their first operand and only read the second.  For two managers,
    which may be the same one, [concat_particles] either raises, when
    names are shared and [overwrite] is false, or returns a new manager
    whose list did not exist before; [subtract_particles] returns such a
    manager.  In each case both operands have the entries, in the order
    and under the names, they had, and so has every other list there
    was. *)
Theorem set_operations_frame (σ : store) (a b : ParticleManager)
    (xa xb : list MetaParticle) (alternate overwrite : bool) :
  σ !! plist a = Some xa →
  σ !! plist b = Some xb →
  let shared := shared_names (names_of xa) (names_of xb) in
  let unchanged (σ' : store) :=
    σ' !! plist a = Some xa ∧ σ' !! plist b = Some xb ∧
    names a σ' = (σ', inr (names_of xa)) ∧
    names b σ' = (σ', inr (names_of xb)) ∧
    ∀ l, is_Some (σ !! l) → σ' !! l = σ !! l in
  (if bool_decide (shared ≠ [] ∧ overwrite = false)
   then ∃ σ',
          concat_particles a b alternate overwrite σ
          = (σ', inl (ManagerError_duplicates (length shared))) ∧
          unchanged σ'
   else ∃ σ' r,
          concat_particles a b alternate overwrite σ = (σ', inr r) ∧
          σ !! plist r = None ∧ unchanged σ') ∧
  (∃ σ' r, subtract_particles a b σ = (σ', inr r) ∧
           σ !! plist r = None ∧ unchanged σ').
Proof.
  intros Ha Hb shared unchanged.
  assert (∀ σ', (∀ l, is_Some (σ !! l) → σ' !! l = σ !! l) → unchanged σ')
    as Hframe.
  { intros σ' Hσ'. unfold unchanged.
    assert (σ' !! plist a = Some xa) as Ha'
      by (rewrite Hσ'; [done|by eexists]).
    assert (σ' !! plist b = Some xb) as Hb'
      by (rewrite Hσ'; [done|by eexists]).
    split; [done|]. split; [done|]. split; [|split; [|done]].
    - run. by rewrite (read_allocated _ _ _ Ha').
    - run. by rewrite (read_allocated _ _ _ Hb'). }
  split.
  - rewrite concat_particles_eq by (by eexists).
    rewrite (read_allocated _ _ _ Ha), (read_allocated _ _ _ Hb).
    fold shared. cbv zeta.
    case_bool_decide as Hfail.
    + rewrite bool_decide_eq_true_2 by done.
      eexists. split; [done|]. apply Hframe. intros l. apply alloc_frame.
    + rewrite bool_decide_eq_false_2 by done.
      do 2 eexists. split; [done|]. split.
      * apply alloc_twice_fresh.
      * apply Hframe. intros l. apply alloc_twice_frame.
  - rewrite subtract_particles_eq by (by eexists).
    do 2 eexists. split; [done|]. split.
    + apply alloc_fresh.
    + apply Hframe. intros l. apply alloc_frame.
Qed.

Lemma set_operations_frame_witness :
  ∃ σ' r,
    concat_particles pm_a pm_b true true sample_store = (σ', inr r) ∧
    sample_store !! plist r = None ∧
    σ' !! plist pm_a
    = Some [entry "a" circle; entry "x" circle; entry "b" dimer] ∧
    σ' !! plist pm_b = Some [entry "x" dimer; entry "c" circle] ∧
    names pm_a σ' = (σ', inr ["a"; "x"; "b"]) ∧
    names pm_b σ' = (σ', inr ["x"; "c"]) ∧
    ∀ l, is_Some (sample_store !! l) → σ' !! l = sample_store !! l.
Proof.
  apply (set_operations_frame sample_store pm_a pm_b
           [entry "a" circle; entry "x" circle; entry "b" dimer]
           [entry "x" dimer; entry "c" circle] true true);
    reflexivity.
Defined.

(** ** The [fastnames] setting of returned managers *)

Lemma getattr_meta_error (attr : string) (m : MetaParticle) (e : exn) :
  getattr_meta attr m = inl e → e = AttributeError attr.
Proof.
  unfold getattr_meta. repeat case_bool_decide; try done.
  destruct (list_find _ _) as [[? ?]|]; [done|]. by intros [= <-].
Qed.

Lemma sort_keys_error (attr : string) (xs : list MetaParticle) (e : exn) :
  mapM (λ m, k ← getattr_meta attr m; mret (k, m)) xs = inl e →
  e = AttributeError attr.
Proof.
  induction xs as [|m xs IH]; [done|]. simpl.
  destruct (getattr_meta attr m) as [e'|k] eqn:Hk; simpl.
  - intros [= <-]. by eapply getattr_meta_error.
  - destruct (mapM _ xs) as [e'|ks]; simpl; [|done].
    intros [= <-]. by apply IH.
Qed.

Lemma sortby_eq (σ : store) self attr :
  sortby self attr false σ =
  match mapM (λ m, k ← getattr_meta attr m; mret (k, m)) (σ !!! plist self) with
  | inl e => (σ, inl e)
  | inr keyed =>
      (<[fresh (dom σ) := (sorted_by (λ a b, pyval_lt a.1 b.1) keyed).*2]> σ,
       inr (Some (mkManager (fresh (dom σ)) false)))
  end.
Proof. unfold sortby. run. by destruct (mapM _ _). Qed.

Lemma subtract_carries_fastnames : carries_fastnames OpSubtract.
Proof.
  intros σ self other σ' r. simpl. unfold __sub__, subtract_particles. run.
  by intros [= _ <-].
Qed.

Lemma getitem_carries_fastnames (key : pykey) :
  carries_fastnames (OpGetitem key).
Proof.
  intros σ self other σ' r. simpl. rewrite getitem_eq.
  destruct (getitem_plout _ _); [done|]. by intros [= _ <-].
Qed.

(** Read-via-index is not the only operation that carries the receiver's
    setting into its result: [a - b] does too. *)
Lemma getitem_not_alone_in_carrying_fastnames :
  (∃ σ' r, __sub__ pm_a pm_b sample_store = (σ', inr r) ∧
           fastnames pm_a = true ∧ fastnames r = true) ∧
  ¬ (∀ op, carries_fastnames op → ∃ key, op = OpGetitem key).
Proof.
  split.
  - unfold __sub__. rewrite subtract_particles_eq by (by eexists).
    do 2 eexists. split; [reflexivity|]. by split.
  - intros Honly.
    destruct (Honly OpSubtract subtract_carries_fastnames) as [key Hkey].
    discriminate.
Qed.

(** C10, as the code has it.  A manager returned by [concat_particles]
    has [fastnames] false whatever the operands have, and the call
    returns unless names are shared and [overwrite] is false (then only
    the copy of the first operand has been allocated); a manager
    returned by [sortby] with [inplace=False] has [fastnames] false, and
    the call returns unless an entry lacks the attribute.  The operations
    that carry the receiver's setting into their result are read-via-index
    and subtraction, whose result is a copy of the receiver; merging and
    sorting do not. *)
Theorem fastnames_of_returned_managers :
  (∀ (σ : store) a b alternate overwrite,
     is_Some (σ !! plist b) →
     let shared := shared_names (names_of (σ !!! plist a))
                     (names_of (σ !!! plist b)) in
     (∃ σ' r, concat_particles a b alternate overwrite σ = (σ', inr r) ∧
              fastnames r = false) ∨
     (shared ≠ [] ∧ overwrite = false ∧
      concat_particles a b alternate overwrite σ
      = (<[fresh (dom σ) := σ !!! plist a]> σ,
         inl (ManagerError_duplicates (length shared))))) ∧
  (∀ (σ : store) self attr,
     (∃ σ' r, sortby self attr false σ = (σ', inr (Some r)) ∧
              fastnames r = false) ∨
     sortby self attr false σ = (σ, inl (AttributeError attr))) ∧
  (∀ op, carries_fastnames op ↔ op = OpSubtract ∨ ∃ key, op = OpGetitem key).
Proof.
  split; [|split].
  - intros σ a b alternate overwrite Hb shared.
    rewrite concat_particles_eq by done. fold shared. cbv zeta.
    case_bool_decide as Hfail.
    + right. destruct Hfail. by repeat split.
    + left. by do 2 eexists.
  - intros σ self attr. rewrite sortby_eq.
    destruct (mapM _ _) as [e|keyed] eqn:Hkeys.
    + right. by rewrite (sort_keys_error _ _ _ Hkeys).
    + left. by do 2 eexists.
  - intros op. split.
    + intros Hcarries.
      destruct op as [alternate overwrite| |attr|key]; [|by left| |by eauto].
      * specialize (Hcarries disjoint_store pm_a pm_b).
        cbn [run_op] in Hcarries.
        rewrite concat_particles_eq in Hcarries by (by eexists).
        cbv zeta in Hcarries.
        rewrite bool_decide_eq_false_2 in Hcarries
          by (intros [Hsh _]; by apply Hsh).
        by specialize (Hcarries _ _ eq_refl).
      * specialize (Hcarries ∅ (mkManager 1%positive true)
                      (mkManager 1%positive true)).
        simpl in Hcarries. unfold mbind, M_bind in Hcarries.
        rewrite sortby_eq in Hcarries.
        by specialize (Hcarries _ _ eq_refl).
    + intros [->|[key ->]].
      * apply subtract_carries_fastnames.
      * apply getitem_carries_fastnames.
Qed.

(** * Further properties *)

(** ** Unique names *)

Lemma py_insert_permutation {A} (i : Z) (x : A) (xs : list A) :
  py_insert i x xs ≡ₚ x :: xs.
Proof.
  unfold py_insert. rewrite <-Permutation_middle.
  by rewrite take_drop.
Qed.

Lemma py_insert_pos_le (n : nat) (i : Z) : (py_insert_pos n i ≤ n)%nat.
Proof. unfold py_insert_pos. cbv zeta. repeat case_bool_decide; lia. Qed.

Lemma py_insert_lookup_pos {A} (i : Z) (x : A) (xs : list A) :
  py_insert i x xs !! py_insert_pos (length xs) i = Some x.
Proof.
  unfold py_insert. pose proof (py_insert_pos_le (length xs) i) as Hle.
  rewrite lookup_app_r; rewrite length_take; [|lia].
  by replace (py_insert_pos (length xs) i
              - py_insert_pos (length xs) i `min` length xs)%nat
    with 0%nat by lia.
Qed.

(** The list [add] leaves on success holds the old entries and the new
    one, at the position the call asked for. *)
Lemma add_success (ALLTYPES : gmap string (traitargs → Particle))
    (σ σ' : store) self arg nm idx col :
  add ALLTYPES self arg nm idx col σ = (σ', inr tt) →
  ∃ p nm',
    let xs := σ !!! plist self in
    let k := if idx_falsy idx then length xs
             else py_insert_pos (length xs) (default 0 idx) in
    resolve_particle ALLTYPES arg = inr p ∧
    (nm ≠ "" → nm' = nm) ∧
    (nm' ∉ names_of xs) ∧
    (k ≤ length xs)%nat ∧
    σ' = <[plist self :=
             (take k xs ++ mkMeta nm' (color_given col) p :: drop k xs)]> σ.
Proof.
  rewrite add_eq.
  destruct (resolve_particle ALLTYPES arg) as [e|p]; [done|]. cbv zeta.
  set (xs := σ !!! plist self).
  set (i := if idx_falsy idx then Z.of_nat (length xs) else default 0 idx).
  set (nm' := if bool_decide (nm = "")
              then auto_name (fastnames self) xs p i else nm).
  destruct (namemap_of xs !! nm') eqn:Hfree; [done|].
  apply namemap_of_None in Hfree.
  intros [= <-].
  exists p, nm'. split; [done|]. split.
  { intros Hnm. unfold nm'. by rewrite bool_decide_eq_false_2. }
  split; [done|]. split.
  { destruct (idx_falsy idx); [done|apply py_insert_pos_le]. }
  do 2 f_equal. unfold i. destruct (idx_falsy idx) eqn:Hf.
  - rewrite bool_decide_eq_true_2 by done.
    by rewrite firstn_all, drop_all.
  - case_bool_decide as Hi; [|done].
    rewrite Hi, py_insert_pos_in_range by lia.
    by rewrite Nat2Z.id, firstn_all, drop_all.
Qed.

(** X1. [add] keeps the names unique: when no two entries share a name
    before a successful [add], none do after it, and the manager has one
    entry more. *)
Theorem add_keeps_names_unique
    (ALLTYPES : gmap string (traitargs → Particle)) (σ σ' : store)
    (self : ParticleManager) (arg : particle_arg) (nm : string)
    (idx : option Z) (col : option pyval) :
  NoDup (names_of (σ !!! plist self)) →
  add ALLTYPES self arg nm idx col σ = (σ', inr tt) →
  NoDup (names_of (σ' !!! plist self)) ∧
  length (σ' !!! plist self) = S (length (σ !!! plist self)).
Proof.
  intros Hnd Hadd.
  destruct (add_success _ _ _ _ _ _ _ _ Hadd)
    as (p & nm' & _ & _ & Hfree & Hk & ->).
  rewrite lookup_total_insert_eq.
  set (xs := σ !!! plist self) in *.
  set (k := if idx_falsy idx then length xs
            else py_insert_pos (length xs) (default 0 idx)) in *.
  assert (take k xs ++ mkMeta nm' (color_given col) p :: drop k xs
          ≡ₚ mkMeta nm' (color_given col) p :: xs) as Hperm.
  { by rewrite <-Permutation_middle, take_drop. }
  split.
  - unfold names_of in *. rewrite Hperm. simpl. by constructor.
  - by rewrite Hperm.
Qed.

Lemma add_keeps_names_unique_witness :
  NoDup (names_of
           ((add sample_types pm_a (ByType "dimer" []) "" (Some 1) None
               sample_store).1 !!! plist pm_a)) ∧
  length ((add sample_types pm_a (ByType "dimer" []) "" (Some 1) None
             sample_store).1 !!! plist pm_a) = 4%nat.
Proof.
  apply (add_keeps_names_unique sample_types sample_store _ pm_a
           (ByType "dimer" []) "" (Some 1) None).
  - apply (bool_decide_unpack _). vm_compute. exact I.
  - reflexivity.
Defined.

(** ** The name index *)

(** The index maps a name to the last position that holds it. *)
Lemma namemap_of_last (xs : list MetaParticle) (nm : string) (k : nat) :
  namemap_of xs !! nm = Some k ↔
  names_of xs !! k = Some nm ∧
  ∀ j, (k < j)%nat → names_of xs !! j ≠ Some nm.
Proof.
  revert k. induction xs as [|x xs IH] using rev_ind; intros k.
  - unfold namemap_of. simpl. rewrite lookup_empty. split; [done|].
    by intros [? _].
  - rewrite namemap_of_snoc. unfold names_of in *. rewrite fmap_app. simpl.
    assert (length (name <$> xs) = length xs) as Hlen by apply length_fmap.
    rewrite lookup_insert_Some. split.
    + intros [[<- <-]|[Hne Hk]].
      * split.
        -- rewrite lookup_app_r by lia. by rewrite Hlen, Nat.sub_diag.
        -- intros j Hj. rewrite lookup_ge_None_2; [done|].
           rewrite length_app. simpl. lia.
      * apply IH in Hk as [Hk Hlast].
        pose proof (lookup_lt_Some _ _ _ Hk) as Hlt.
        split; [by rewrite lookup_app_l by lia|].
        intros j Hj. destruct (decide (j < length xs)%nat) as [Hjl|Hjl].
        -- rewrite lookup_app_l by lia. by apply Hlast.
        -- rewrite lookup_app_r by lia.
           destruct (j - length (name <$> xs))%nat eqn:Hd; simpl; [|done].
           congruence.
    + intros [Hk Hlast].
      destruct (decide (name x = nm)) as [Heq|Hne].
      * left. split; [done|].
        destruct (decide (k < length xs)%nat) as [Hlt|Hge].
        -- exfalso. apply (Hlast (length xs) Hlt).
           rewrite lookup_app_r by lia. rewrite Hlen, Nat.sub_diag.
           simpl. by rewrite Heq.
        -- apply lookup_lt_Some in Hk. rewrite length_app in Hk.
           simpl in Hk. lia.
      * right. split; [done|]. apply IH.
        assert (k < length xs)%nat as Hlt.
        { destruct (decide (k < length xs)%nat) as [|Hge]; [done|].
          exfalso. rewrite lookup_app_r in Hk by lia.
          destruct (k - length (name <$> xs))%nat eqn:Hd; simpl in Hk;
            [congruence|done]. }
        rewrite lookup_app_l in Hk by lia. split; [done|].
        intros j Hj. specialize (Hlast j Hj).
        destruct (decide (j < length xs)%nat) as [Hjl|Hjl].
        -- by rewrite lookup_app_l in Hlast by lia.
        -- rewrite lookup_ge_None_2; [done|lia].
Qed.

Lemma idx_one_eq (σ : store) self nm :
  Methods.idx self [nm] σ =
  match namemap_of (σ !!! plist self) !! nm with
  | Some k => (σ, inr (IdxOne k))
  | None => (σ, inl (KeyError nm))
  end.
Proof.
  unfold Methods.idx. run. unfold dict_get.
  by destruct (namemap_of _ !! nm).
Qed.

(** X2. [idx] of one name: when some entry has the name, the position
    returned holds an entry of that name and no later position does (the
    last one when a list handed to the constructor repeats a name);
    otherwise [KeyError] with the name.  The store is not touched. *)
Theorem idx_of_one_name (σ : store) (self : ParticleManager) (nm : string) :
  let nms := names_of (σ !!! plist self) in
  match Methods.idx self [nm] σ with
  | (σ', inr (IdxOne k)) =>
      σ' = σ ∧ nms !! k = Some nm ∧ ∀ j, (k < j)%nat → nms !! j ≠ Some nm
  | (σ', inr (IdxTuple _)) => False
  | (σ', inl e) => σ' = σ ∧ e = KeyError nm ∧ nm ∉ nms
  end.
Proof.
  intros nms. rewrite idx_one_eq.
  destruct (namemap_of _ !! nm) as [k|] eqn:Hk.
  - apply namemap_of_last in Hk as [Hk Hlast]. by repeat split.
  - apply namemap_of_None in Hk. by repeat split.
Qed.

(** ** Adding, then looking up *)

Lemma names_of_insert_lookup (xs : list MetaParticle) (m : MetaParticle)
    (k j : nat) :
  (k ≤ length xs)%nat →
  name m ∉ names_of xs →
  names_of (take k xs ++ m :: drop k xs) !! j = Some (name m) ↔ j = k.
Proof.
  intros Hk Hfree. unfold names_of in *.
  rewrite fmap_app, fmap_cons.
  assert (length (name <$> take k xs) = k) as Hlen
    by (rewrite length_fmap, length_take; lia).
  split.
  - intros Hj. destruct (decide (j < k)%nat) as [Hlt|Hge].
    + exfalso. apply Hfree. rewrite lookup_app_l in Hj by lia.
      apply list_elem_of_lookup_2 in Hj.
      apply list_elem_of_fmap in Hj as [y [Hy Hin]].
      apply list_elem_of_fmap. exists y. split; [done|].
      by eapply subseteq_take.
    + rewrite lookup_app_r in Hj by lia. rewrite Hlen in Hj.
      destruct (j - k)%nat eqn:Hd; [lia|]. simpl in Hj.
      exfalso. apply Hfree.
      apply list_elem_of_lookup_2 in Hj.
      apply list_elem_of_fmap in Hj as [y [Hy Hin]].
      apply list_elem_of_fmap. exists y. split; [done|].
      by eapply subseteq_drop.
  - intros ->. rewrite lookup_app_r by lia. by rewrite Hlen, Nat.sub_diag.
Qed.

Lemma getitem_by_name (σ : store) self nm k m :
  namemap_of (σ !!! plist self) !! nm = Some k →
  (σ !!! plist self) !! k = Some m →
  __getitem__ self (KAtom (AStr nm)) σ
  = (<[fresh (dom σ) := [m]]> σ,
     inr (mkManager (fresh (dom σ)) (fastnames self))).
Proof.
  intros Hk Hm. rewrite getitem_eq.
  destruct (getitem_plout_resolved (σ !!! plist self) (KAtom (AStr nm)) [k])
    as [es [-> Hes]];
    [simpl; by rewrite name_position_namemap, Hk|by intros []|by intros []|].
  inv Hes. match goal with H : Forall2 _ [] _ |- _ => inv H end.
  by simplify_eq.
Qed.

(** X3. Adding under an explicit name and looking the name up agree:
    after a successful [add], [idx] of the name is the position the entry
    went to (the end without a position or with position [0], else where
    [list.insert] puts it), and indexing by the name gives a manager
    holding just the new entry. *)
Theorem add_then_lookup
    (ALLTYPES : gmap string (traitargs → Particle)) (σ σ' : store)
    (self : ParticleManager) (arg : particle_arg) (nm : string)
    (idx : option Z) (col : option pyval) :
  nm ≠ "" →
  add ALLTYPES self arg nm idx col σ = (σ', inr tt) →
  let xs := σ !!! plist self in
  let k := if idx_falsy idx then length xs
           else py_insert_pos (length xs) (default 0 idx) in
  ∃ p,
    resolve_particle ALLTYPES arg = inr p ∧
    Methods.idx self [nm] σ' = (σ', inr (IdxOne k)) ∧
    __getitem__ self (KAtom (AStr nm)) σ'
    = (<[fresh (dom σ') := [mkMeta nm (color_given col) p]]> σ',
       inr (mkManager (fresh (dom σ')) (fastnames self))).
Proof.
  intros Hnm Hadd xs k.
  destruct (add_success _ _ _ _ _ _ _ _ Hadd)
    as (p & nm' & Hp & Hnm' & Hfree & Hk & ->).
  fold xs k in Hfree, Hk |- *. rewrite (Hnm' Hnm) in *.
  set (m := mkMeta nm (color_given col) p).
  assert (namemap_of (take k xs ++ m :: drop k xs) !! nm = Some k) as Hidx.
  { apply namemap_of_last. split.
    - by apply (names_of_insert_lookup xs m k k).
    - intros j Hj Hname.
      apply (names_of_insert_lookup xs m k j) in Hname; [lia|done|done]. }
  exists p. split; [done|]. split.
  - rewrite idx_one_eq, lookup_total_insert_eq. by rewrite Hidx.
  - apply (getitem_by_name _ _ _ k); rewrite lookup_total_insert_eq; [done|].
    rewrite lookup_app_r; rewrite length_take; [|lia].
    by replace (k - k `min` length xs)%nat with 0%nat by lia.
Qed.

Lemma add_then_lookup_witness :
  ∃ p,
    resolve_particle sample_types (ByInstance dimer) = inr p ∧
    Methods.idx pm_a ["new"]
      (add sample_types pm_a (ByInstance dimer) "new" (Some (-1)) None
         sample_store).1
    = ((add sample_types pm_a (ByInstance dimer) "new" (Some (-1)) None
          sample_store).1, inr (IdxOne 2)) ∧
    __getitem__ pm_a (KAtom (AStr "new"))
      (add sample_types pm_a (ByInstance dimer) "new" (Some (-1)) None
         sample_store).1
    = (<[fresh (dom (add sample_types pm_a (ByInstance dimer) "new"
                       (Some (-1)) None sample_store).1)
         := [mkMeta "new" None p]]>
         (add sample_types pm_a (ByInstance dimer) "new" (Some (-1)) None
            sample_store).1,
       inr (mkManager
              (fresh (dom (add sample_types pm_a (ByInstance dimer) "new"
                             (Some (-1)) None sample_store).1)) true)).
Proof.
  apply (add_then_lookup sample_types sample_store _ pm_a
           (ByInstance dimer) "new" (Some (-1)) None).
  - discriminate.
  - reflexivity.
Defined.

(** ** Deleting by name *)

Lemma filter_ne_delete {A} `{EqDecision A} (l : list A) (k : nat) (x : A) :
  NoDup l → l !! k = Some x → filter (λ y, y ≠ x) l = delete k l.
Proof.
  intros Hnd. revert k. induction Hnd as [|y l Hy Hnd IH]; intros k Hk; [done|].
  destruct k as [|k]; simpl in Hk.
  - simplify_eq. rewrite filter_cons_False by (intros ?; done). simpl.
    clear IH. induction l as [|z l IH]; [done|].
    apply not_elem_of_cons in Hy as [Hne Hy].
    rewrite filter_cons_True by done. f_equal. apply IH; [done|].
    by apply NoDup_cons in Hnd as [_ ?].
  - rewrite filter_cons_True; [simpl; f_equal; by apply IH|].
    intros ->. apply Hy. by eapply list_elem_of_lookup_2.
Qed.

(** X4. Deleting by name: a name no entry has raises [KeyError] and
    deletes nothing; with unique names, a name some entry has removes
    that entry alone, the other names staying in their order. *)
Theorem delitem_by_name (σ : store) (self : ParticleManager) (nm : string) :
  let xs := σ !!! plist self in
  (nm ∉ names_of xs →
   __delitem__ self (KAtom (AStr nm)) σ = (σ, inl (KeyError nm))) ∧
  (NoDup (names_of xs) → nm ∈ names_of xs →
   ∃ xs',
     __delitem__ self (KAtom (AStr nm)) σ = (<[plist self := xs']> σ, inr tt) ∧
     names_of xs' = filter (λ n, n ≠ nm) (names_of xs) ∧
     (nm ∉ names_of xs') ∧
     S (length xs') = length xs).
Proof.
  intros xs. split.
  - intros Hfree%namemap_of_None. rewrite delitem_eq. fold xs. simpl.
    unfold dict_get. by rewrite Hfree.
  - intros Hnd Hin.
    destruct (namemap_of_is_Some _ _ Hin) as [k Hk].
    pose proof (namemap_of_Some _ _ _ Hk) as Hname.
    pose proof (lookup_lt_Some _ _ _ Hname) as Hlt.
    unfold names_of in Hlt. rewrite length_fmap in Hlt.
    exists (delete k xs). split; [|split; [|split]].
    + rewrite delitem_eq. fold xs. simpl. unfold dict_get. rewrite Hk. simpl.
      by rewrite py_norm_nat.
    + rewrite (filter_ne_delete _ k nm Hnd Hname).
      unfold names_of. clear. revert k.
      induction xs as [|x xs IH]; intros [|k]; simpl; try done.
      f_equal. apply IH.
    + assert (names_of (delete k xs) = filter (λ n, n ≠ nm) (names_of xs))
        as ->.
      { rewrite (filter_ne_delete _ k nm Hnd Hname).
        unfold names_of. clear. revert k.
        induction xs as [|x xs IH]; intros [|k]; simpl; try done.
        f_equal. apply IH. }
      intros [Hne _]%list_elem_of_filter. done.
    + rewrite length_delete by (by apply lookup_lt_is_Some_2). lia.
Qed.

Lemma delitem_by_name_witness :
  ∃ xs',
    __delitem__ pm_a (KAtom (AStr "x")) sample_store
    = (<[plist pm_a := xs']> sample_store, inr tt) ∧
    names_of xs' = filter (λ n, n ≠ "x") (names_of (sample_store !!! plist pm_a)) ∧
    ("x" ∉ names_of xs') ∧
    S (length xs') = length (sample_store !!! plist pm_a).
Proof.
  apply (delitem_by_name sample_store pm_a "x").
  - apply (bool_decide_unpack _). vm_compute. exact I.
  - apply (bool_decide_unpack _). vm_compute. exact I.
Defined.

(** ** Deleting through an iterable of integers *)

Lemma Forall2_seq_lookup {A} (xs : list A) :
  Forall2 (λ p e, xs !! p = Some e) (seq 0 (length xs)) xs.
Proof.
  apply Forall2_same_length_lookup_2.
  - by rewrite length_seq.
  - intros i p e Hp He. apply lookup_seq in Hp as [-> _]. done.
Qed.

Lemma unmask_ints (nmap : gmap string nat) (ints : list Z) :
  mapM (_unmask_index nmap) (AInt <$> ints) = inr (IInt <$> ints).
Proof.
  apply mapM_result_inr. induction ints; constructor; done.
Qed.

(** X5. In an iterable key the integers are compared with the positions
    [0 .. len-1]: the entries at those positions are removed and nothing
    is raised, so a negative or too large integer is ignored and removes
    nothing, whereas the same integer as a single key counts from the end
    or raises [IndexError]. *)
Theorem delitem_iterable_of_ints (σ : store) (self : ParticleManager)
    (ints : list Z) :
  let xs := σ !!! plist self in
  let n := Z.of_nat (length xs) in
  (∃ es,
     __delitem__ self (KIter (AInt <$> ints)) σ
     = (<[plist self := es]> σ, inr tt) ∧
     Forall2 (λ p e, xs !! p = Some e)
       (filter (λ p, Z.of_nat p ∉ ints) (seq 0 (length xs))) es ∧
     ((∀ i, i ∈ ints → i < 0 ∨ n ≤ i) → es = xs)) ∧
  (∀ i, i < - n ∨ n ≤ i →
     __delitem__ self (KAtom (AInt i)) σ = (σ, inl IndexError)) ∧
  (∀ i, - n ≤ i < 0 →
     __delitem__ self (KAtom (AInt i)) σ
     = (<[plist self := delete (Z.to_nat (i + n)) xs]> σ, inr tt)).
Proof.
  intros xs n. split; [|split].
  - destruct (mapM_getitem_positions xs
                (filter (λ p, Z.of_nat p ∉ ints) (seq 0 (length xs))))
      as [es [Hes Hall]].
    { apply Forall_forall.
      intros p [_ Hp%elem_of_seq]%list_elem_of_filter. lia. }
    exists es. split; [|split; [done|]].
    + rewrite delitem_eq. fold xs. simpl. rewrite unmask_ints. simpl.
      rewrite (list_filter_iff _ (λ p, Z.of_nat p ∉ ints))
        by (intros p; apply in_to_remove_ints).
      by rewrite Hes.
    + intros Hout.
      eapply Forall2_lookup_functional; [exact Hall|].
      rewrite filter_all; [apply Forall2_seq_lookup|].
      intros p Hp%elem_of_seq Hin. apply Hout in Hin. lia.
  - intros i Hi. rewrite delitem_eq. fold xs. simpl.
    unfold py_norm. cbv zeta.
    destruct (bool_decide (i < 0)); by rewrite bool_decide_eq_false_2 by lia.
  - intros i Hi. rewrite delitem_eq. fold xs. simpl.
    unfold py_norm. cbv zeta.
    rewrite (bool_decide_eq_true_2 (i < 0)) by lia.
    by rewrite bool_decide_eq_true_2 by lia.
Qed.

(** ** Selecting and deleting through the same mask *)

Lemma unflagged_negb (flags : list bool) :
  unflagged (negb <$> flags) = flagged flags.
Proof.
  unfold unflagged, flagged. rewrite length_fmap.
  apply list_filter_iff. intros i. rewrite list_lookup_fmap.
  destruct (flags !! i) as [[]|]; simpl; split; intros; simplify_eq; done.
Qed.

(** The comprehension of [__getitem__] for an array key. *)
Lemma getitem_mask_plout (xs : list MetaParticle) (a : list npval) :
  (length a ≤ length xs)%nat →
  getitem_plout xs (KArray a) = inr (filter_once xs (negb <$> astype_bool a)).
Proof.
  intros Hlen. simpl.
  rewrite (mapM_result_fmap fst (λ p, list_getitem xs (Z.of_nat p))).
  rewrite enumerate_filter_fst.
  destruct (mapM_getitem_positions xs
              (filter (λ i, astype_bool a !! i = Some true)
                 (seq 0 (length (astype_bool a))))) as [es [-> Hes]].
  - eapply Forall_impl; [apply flags_positions_lt|].
    simpl. intros p. rewrite length_astype_bool. lia.
  - f_equal. eapply Forall2_lookup_functional; [exact Hes|].
    fold (flagged (astype_bool a)). rewrite <-unflagged_negb.
    apply filter_once_positions. by rewrite length_fmap, length_astype_bool.
Qed.

Lemma filter_once_partition {A} (xs : list A) (flags : list bool) :
  length flags = length xs →
  filter_once xs (negb <$> flags) ++ filter_once xs flags ≡ₚ xs.
Proof.
  revert flags. induction xs as [|x xs IH]; intros [|b flags] Hlen;
    simpl in *; try done.
  specialize (IH flags ltac:(lia)). destruct b; simpl.
  - by constructor.
  - rewrite <-Permutation_middle. by constructor.
Qed.

Lemma filter_once_predicate {A} (f : A → bool) (xs : list A) :
  filter_once xs (f <$> xs) = filter (λ x, f x = false) xs.
Proof.
  induction xs as [|x xs IH]; [done|]. csimpl. rewrite filter_cons, IH.
  destruct (f x); by rewrite ?(decide_True (P:=false = false)) by done.
Qed.

(** X6. A mask of the manager's length splits the entries: what
    [__getitem__] selects through it (into a new list) and what
    [__delitem__] through the same mask leaves are, together, the entries
    there were. *)
Theorem mask_selects_what_delete_removes (σ : store)
    (self : ParticleManager) (a : list npval) :
  let xs := σ !!! plist self in
  length a = length xs →
  ∃ selected kept,
    __getitem__ self (KArray a) σ
    = (<[fresh (dom σ) := selected]> σ,
       inr (mkManager (fresh (dom σ)) (fastnames self))) ∧
    __delitem__ self (KArray a) σ = (<[plist self := kept]> σ, inr tt) ∧
    selected ++ kept ≡ₚ xs ∧
    (length selected + length kept = length xs)%nat.
Proof.
  intros xs Hlen.
  exists (filter_once xs (negb <$> astype_bool a)),
    (filter_once xs (astype_bool a)).
  assert (filter_once xs (negb <$> astype_bool a)
          ++ filter_once xs (astype_bool a) ≡ₚ xs) as Hperm.
  { apply filter_once_partition. by rewrite length_astype_bool. }
  split; [|split; [|split]].
  - rewrite getitem_eq. fold xs. by rewrite getitem_mask_plout by lia.
  - rewrite delitem_eq. fold xs. by rewrite delitem_mask_plist by lia.
  - done.
  - by rewrite <-length_app, Hperm.
Qed.

Lemma mask_selects_what_delete_removes_witness :
  ∃ selected kept,
    __getitem__ pm_a (KArray [NInt 0; NInt 7; NBool true]) sample_store
    = (<[fresh (dom sample_store) := selected]> sample_store,
       inr (mkManager (fresh (dom sample_store)) (fastnames pm_a))) ∧
    __delitem__ pm_a (KArray [NInt 0; NInt 7; NBool true]) sample_store
    = (<[plist pm_a := kept]> sample_store, inr tt) ∧
    selected ++ kept ≡ₚ sample_store !!! plist pm_a ∧
    (length selected + length kept
     = length (sample_store !!! plist pm_a))%nat.
Proof.
  apply (mask_selects_what_delete_removes sample_store pm_a
           [NInt 0; NInt 7; NBool true]).
  reflexivity.
Defined.

(** X7. A mask computed entry by entry from a test on the entries
    selects exactly the entries that pass the test, in their order;
    deleting through it leaves exactly those that fail it. *)
Theorem mask_of_predicate (σ : store) (self : ParticleManager)
    (test : MetaParticle → bool) :
  let xs := σ !!! plist self in
  let mask := (λ x, NBool (test x)) <$> xs in
  __getitem__ self (KArray mask) σ
  = (<[fresh (dom σ) := filter (λ x, test x = true) xs]> σ,
     inr (mkManager (fresh (dom σ)) (fastnames self))) ∧
  __delitem__ self (KArray mask) σ
  = (<[plist self := filter (λ x, test x = false) xs]> σ, inr tt).
Proof.
  intros xs mask.
  assert (length mask = length xs) as Hlen by (unfold mask; apply length_fmap).
  assert (astype_bool mask = test <$> xs) as Hmask.
  { unfold mask, astype_bool. by rewrite <-list_fmap_compose. }
  split.
  - rewrite getitem_eq. fold xs. rewrite getitem_mask_plout by lia.
    rewrite Hmask, <-list_fmap_compose, filter_once_predicate.
    do 3 f_equal. apply list_filter_iff. intros x. simpl.
    by destruct (test x).
  - rewrite delitem_eq. fold xs. rewrite delitem_mask_plist by lia.
    by rewrite Hmask, filter_once_predicate.
Qed.

(** ** Masks longer than the manager *)

Lemma mapM_getitem_out_of_range {A} (xs : list A) (ps : list nat) :
  Exists (λ p, (length xs ≤ p)%nat) ps →
  mapM (λ p, list_getitem xs (Z.of_nat p)) ps = inl IndexError.
Proof.
  induction ps as [|p ps IH]; intros Hex; [by inv Hex|].
  simpl. destruct (decide (length xs ≤ p)%nat) as [Hp|Hp].
  - unfold list_getitem, py_index, py_norm. cbv zeta.
    rewrite (bool_decide_eq_false_2 (Z.of_nat p < 0)) by lia.
    by rewrite bool_decide_eq_false_2 by lia.
  - destruct (lookup_lt_is_Some_2 xs p) as [x Hx]; [lia|].
    rewrite (list_getitem_nat _ _ _ Hx). simpl.
    rewrite IH; [done|]. inv Hex; [lia|done].
Qed.

(** X8. A mask longer than the manager: an unflagged position past the
    end makes [__delitem__] raise [IndexError] and delete nothing, a
    flagged position past the end does the same to [__getitem__]. *)
Theorem mask_past_the_end (σ : store) (self : ParticleManager)
    (a : list npval) (p : nat) :
  (length (σ !!! plist self) ≤ p)%nat →
  (astype_bool a !! p = Some false →
   __delitem__ self (KArray a) σ = (σ, inl IndexError)) ∧
  (astype_bool a !! p = Some true →
   __getitem__ self (KArray a) σ = (σ, inl IndexError)).
Proof.
  intros Hp.
  assert (∀ b, astype_bool a !! p = Some b →
            mapM (λ ie : nat * bool,
                    list_getitem (σ !!! plist self) (Z.of_nat ie.1))
              (filter (λ ie, ie.2 = b) (enumerate (astype_bool a)))
            = inl IndexError) as Hfail.
  { intros b Hb.
    rewrite (mapM_result_fmap fst
               (λ p, list_getitem (σ !!! plist self) (Z.of_nat p))).
    rewrite enumerate_filter_fst. apply mapM_getitem_out_of_range.
    apply Exists_exists. exists p. split; [|done].
    apply list_elem_of_filter. split; [done|].
    apply elem_of_seq. apply lookup_lt_Some in Hb. lia. }
  split; intros Hb.
  - rewrite delitem_eq. simpl. by rewrite (Hfail _ Hb).
  - rewrite getitem_eq. simpl. by rewrite (Hfail _ Hb).
Qed.

Lemma mask_past_the_end_witness :
  __delitem__ pm_b (KArray [NBool true; NBool true; NBool false])
    sample_store = (sample_store, inl IndexError).
Proof.
  apply (mask_past_the_end sample_store pm_b
           [NBool true; NBool true; NBool false] 2%nat).
  - vm_compute. lia.
  - reflexivity.
Defined.

(** ** Names after subtracting and merging *)

Lemma names_of_filter (P : string → Prop) `{!∀ n, Decision (P n)}
    (xs : list MetaParticle) :
  names_of (filter (λ p, P (name p)) xs) = filter P (names_of xs).
Proof.
  unfold names_of. induction xs as [|x xs IH]; [done|].
  csimpl. rewrite !filter_cons. destruct (decide (P (name x))); csimpl;
    by rewrite IH.
Qed.

Lemma names_of_filter_notin (nb : list string) (xs : list MetaParticle) :
  names_of (filter (λ p, name p ∉ nb) xs) = filter (λ n, n ∉ nb) (names_of xs).
Proof. exact (names_of_filter (λ n, n ∉ nb) xs). Qed.

Lemma not_shared_filter (xa : list MetaParticle) (nb : list string) :
  not_shared (shared_names (names_of xa) nb) xa
  = filter (λ p, name p ∉ nb) xa.
Proof.
  unfold not_shared, shared_names. apply filter_ext_in. intros p Hp.
  rewrite list_elem_of_filter. split.
  - intros Hn Hin. apply Hn. split; [done|].
    unfold names_of. apply list_elem_of_fmap. by exists p.
  - intros Hn [Hin _]. done.
Qed.

(** X9. [subtract_particles] returns the first manager's entries whose
    name the second manager does not have, in their order; the names of
    the result are the first manager's names without those of the
    second, and when the two share no name the result has all entries of
    the first.  (The second manager's list is in the store.) *)
Theorem subtract_keeps_other_names (σ : store) (a b : ParticleManager) :
  let xa := σ !!! plist a in
  let nb := names_of (σ !!! plist b) in
  is_Some (σ !! plist b) →
  ∃ σ' r,
    subtract_particles a b σ = (σ', inr r) ∧
    σ' !!! plist r = filter (λ p, name p ∉ nb) xa ∧
    names r σ' = (σ', inr (filter (λ n, n ∉ nb) (names_of xa))) ∧
    ((∀ nm, nm ∈ names_of xa → nm ∉ nb) → σ' !!! plist r = xa).
Proof.
  intros xa nb Hb. rewrite subtract_particles_eq by done.
  fold xa nb. cbv zeta.
  do 2 eexists. split; [done|]. cbn [plist].
  rewrite lookup_total_insert_eq, not_shared_filter.
  split; [done|]. split.
  - unfold names, mbind, M_bind, read, mret, M_ret. cbn [plist].
    rewrite lookup_total_insert_eq.
    by rewrite names_of_filter_notin.
  - intros Hdis. apply filter_all. intros p Hp. apply Hdis.
    unfold names_of. apply list_elem_of_fmap. by exists p.
Qed.

Lemma subtract_keeps_other_names_witness :
  ∃ σ' r,
    subtract_particles pm_a pm_b sample_store = (σ', inr r) ∧
    σ' !!! plist r
    = filter (λ p, name p ∉ names_of (sample_store !!! plist pm_b))
        (sample_store !!! plist pm_a) ∧
    names r σ'
    = (σ', inr (filter (λ n, n ∉ names_of (sample_store !!! plist pm_b))
                  (names_of (sample_store !!! plist pm_a)))) ∧
    ((∀ nm, nm ∈ names_of (sample_store !!! plist pm_a) →
            nm ∉ names_of (sample_store !!! plist pm_b)) →
     σ' !!! plist r = sample_store !!! plist pm_a).
Proof.
  apply (subtract_keeps_other_names sample_store pm_a pm_b).
  by eexists.
Defined.

(** X10. Merging with [overwrite], for two managers with unique names
    each (the second one's list in the store): the call returns; the result holds the second manager's
    entries and the first manager's entries whose name the second does
    not have; its names are unique; an entry of the result under a name
    of the second manager is the second manager's. *)
Theorem concat_overwrite_second_wins (σ : store) (a b : ParticleManager)
    (alternate : bool) :
  let xa := σ !!! plist a in
  let xb := σ !!! plist b in
  is_Some (σ !! plist b) →
  NoDup (names_of xa) →
  NoDup (names_of xb) →
  ∃ σ' r,
    concat_particles a b alternate true σ = (σ', inr r) ∧
    σ' !!! plist r ≡ₚ filter (λ p, name p ∉ names_of xb) xa ++ xb ∧
    NoDup (names_of (σ' !!! plist r)) ∧
    ∀ e, e ∈ σ' !!! plist r → name e ∈ names_of xb → e ∈ xb.
Proof.
  intros xa xb Hb Hnda Hndb.
  set (kept := filter (λ p, name p ∉ names_of xb) xa).
  assert (∃ σ' r, concat_particles a b alternate true σ = (σ', inr r) ∧
            σ' !!! plist r ≡ₚ kept ++ xb) as (σ' & r & Hrun & Hperm).
  { rewrite concat_particles_eq by done. fold xa xb. cbv zeta.
    rewrite bool_decide_eq_false_2 by (intros [_ ?]; done).
    do 2 eexists. split; [done|]. cbn [plist].
    rewrite lookup_total_insert_eq, not_shared_filter. fold kept.
    destruct alternate; [|done].
    rewrite alternate_particles_interleave. apply interleave_permutation. }
  exists σ', r. split; [done|]. split; [done|]. split.
  - unfold names_of. rewrite Hperm, fmap_app. apply NoDup_app.
    split; [|split; [|done]].
    + fold (names_of kept). unfold kept.
      rewrite names_of_filter_notin.
      by apply NoDup_filter.
    + intros nm Hin. fold (names_of kept) in Hin. unfold kept in Hin.
      rewrite names_of_filter_notin in Hin.
      by apply list_elem_of_filter in Hin as [? _].
  - intros e He Hname. rewrite Hperm in He.
    apply elem_of_app in He as [He|He]; [|done].
    apply list_elem_of_filter in He as [Hn _]. done.
Qed.

Lemma concat_overwrite_second_wins_witness :
  ∃ σ' r,
    concat_particles pm_a pm_b true true sample_store = (σ', inr r) ∧
    σ' !!! plist r
    ≡ₚ filter (λ p, name p ∉ names_of (sample_store !!! plist pm_b))
         (sample_store !!! plist pm_a) ++ sample_store !!! plist pm_b ∧
    NoDup (names_of (σ' !!! plist r)) ∧
    ∀ e, e ∈ σ' !!! plist r →
         name e ∈ names_of (sample_store !!! plist pm_b) →
         e ∈ sample_store !!! plist pm_b.
Proof.
  apply (concat_overwrite_second_wins sample_store pm_a pm_b true).
  - by eexists.
  - apply (bool_decide_unpack _). vm_compute. exact I.
  - apply (bool_decide_unpack _). vm_compute. exact I.
Defined.

(** ** Sorting *)

Lemma filter_none {A} (P : A → Prop) `{!∀ x, Decision (P x)} (l : list A) :
  (∀ x, x ∈ l → ¬ P x) → filter P l = [].
Proof.
  induction l as [|a l IH]; intros Hnone; [done|].
  rewrite filter_cons_False by (apply Hnone; left).
  apply IH. intros x Hx. apply Hnone. by right.
Qed.

Section insertion_sort.
Context {A : Type} (lt : A → A → bool).
Hypothesis lt_asym : ∀ a b, lt a b = true → lt b a = false.
Hypothesis le_trans : ∀ a b c, lt b a = false → lt c b = false → lt c a = false.

Lemma sorted_insert_permutation (x : A) (l : list A) :
  sorted_insert lt x l ≡ₚ x :: l.
Proof using Type.
  induction l as [|y l IH]; [done|]. simpl.
  destruct (lt x y); [done|]. rewrite IH. apply perm_swap.
Qed.

Lemma sorted_by_acc_permutation (acc l : list A) :
  foldl (λ acc x, sorted_insert lt x acc) acc l ≡ₚ acc ++ l.
Proof using Type.
  revert acc. induction l as [|x l IH]; intros acc; simpl.
  - by rewrite app_nil_r.
  - rewrite IH, sorted_insert_permutation. simpl. apply Permutation_middle.
Qed.

Lemma sorted_by_permutation (l : list A) : sorted_by lt l ≡ₚ l.
Proof using Type. apply sorted_by_acc_permutation. Qed.

Lemma sorted_insert_sorted (x : A) (l : list A) :
  StronglySorted (λ a b, lt b a = false) l →
  StronglySorted (λ a b, lt b a = false) (sorted_insert lt x l).
Proof using lt_asym le_trans.
  induction 1 as [|y l Hs IH Hy]; simpl.
  - repeat constructor.
  - destruct (lt x y) eqn:Hxy.
    + constructor; [by constructor|]. constructor; [by apply lt_asym|].
      eapply Forall_impl; [exact Hy|]. simpl. intros z Hz.
      eapply le_trans; [|exact Hz]. by apply lt_asym.
    + constructor; [done|].
      rewrite sorted_insert_permutation. by constructor.
Qed.

Lemma sorted_by_acc_sorted (acc l : list A) :
  StronglySorted (λ a b, lt b a = false) acc →
  StronglySorted (λ a b, lt b a = false)
    (foldl (λ acc x, sorted_insert lt x acc) acc l).
Proof using lt_asym le_trans.
  revert acc. induction l as [|x l IH]; intros acc Hacc; [done|].
  simpl. by apply IH, sorted_insert_sorted.
Qed.

Lemma sorted_by_sorted (l : list A) :
  StronglySorted (λ a b, lt b a = false) (sorted_by lt l).
Proof using lt_asym le_trans. apply sorted_by_acc_sorted. constructor. Qed.

(** Stability: the elements of a class whose members no element tells
    apart keep their order. *)
Context (Q : A → Prop) `{!∀ a, Decision (Q a)}.
Hypothesis Q_same : ∀ a b c, Q a → Q b → lt a c = lt b c.
Hypothesis Q_irrefl : ∀ a b, Q a → Q b → lt a b = false.

Lemma sorted_insert_filter (x : A) (l : list A) :
  StronglySorted (λ a b, lt b a = false) l →
  filter Q (sorted_insert lt x l)
  = filter Q l ++ (if decide (Q x) then [x] else []).
Proof using Q_same Q_irrefl.
  induction 1 as [|y l Hs IH Hy]; simpl.
  - rewrite filter_cons, filter_nil. done.
  - destruct (lt x y) eqn:Hxy.
    + destruct (decide (Q x)) as [Hx|Hx].
      * rewrite filter_cons_True by done.
        rewrite (filter_none Q (y :: l)); [done|].
        intros z [->|Hz]%elem_of_cons Hqz.
        -- by rewrite (Q_irrefl x y) in Hxy.
        -- rewrite Forall_forall in Hy. specialize (Hy z Hz).
           rewrite (Q_same z x y) in Hy by done. congruence.
      * rewrite filter_cons_False by done. by rewrite app_nil_r.
    + rewrite !filter_cons, IH. by destruct (decide (Q y)).
Qed.

Lemma sorted_by_acc_filter (acc l : list A) :
  StronglySorted (λ a b, lt b a = false) acc →
  filter Q (foldl (λ acc x, sorted_insert lt x acc) acc l)
  = filter Q acc ++ filter Q l.
Proof using lt_asym le_trans Q_same Q_irrefl.
  revert acc. induction l as [|x l IH]; intros acc Hacc; simpl.
  - by rewrite filter_nil, app_nil_r.
  - rewrite IH by (by apply sorted_insert_sorted).
    rewrite sorted_insert_filter by done.
    rewrite filter_cons, <-app_assoc. by destruct (decide (Q x)).
Qed.

Lemma sorted_by_stable (l : list A) :
  filter Q (sorted_by lt l) = filter Q l.
Proof using lt_asym le_trans Q_same Q_irrefl.
  unfold sorted_by. rewrite sorted_by_acc_filter by constructor. done.
Qed.
End insertion_sort.

(** Python 2's order on the attribute values. *)
Lemma string_ltb_spec (s t : string) :
  String.ltb s t = true ↔ String.compare s t = Lt.
Proof. unfold String.ltb. by destruct (String.compare s t). Qed.

Lemma string_ltb_asym (s t : string) :
  String.ltb s t = true → String.ltb t s = false.
Proof.
  rewrite string_ltb_spec. intros Hlt. unfold String.ltb.
  rewrite String.compare_antisym, Hlt. done.
Qed.

Lemma string_le_trans (a b c : string) :
  String.ltb b a = false → String.ltb c b = false → String.ltb c a = false.
Proof.
  intros Hba Hcb. destruct (String.ltb c a) eqn:Hca; [|done]. exfalso.
  apply string_ltb_spec in Hca.
  destruct (String.compare b a) eqn:Hcmp.
  - apply String.compare_eq_iff in Hcmp as ->.
    apply string_ltb_spec in Hca. congruence.
  - apply string_ltb_spec in Hcmp. congruence.
  - assert (String.compare a b = Lt) as Hab
      by (by rewrite String.compare_antisym, Hcmp).
    assert (String.compare c b = Lt) as Hlt.
    { apply OrderedTypeEx.String_as_OT.cmp_lt.
      eapply OrderedTypeEx.String_as_OT.lt_trans;
        by apply OrderedTypeEx.String_as_OT.cmp_lt. }
    apply string_ltb_spec in Hlt. congruence.
Qed.

Lemma pyval_lt_asym (a b : pyval) : pyval_lt a b = true → pyval_lt b a = false.
Proof.
  destruct a as [x|s], b as [y|t]; simpl; try done.
  - rewrite bool_decide_eq_true, bool_decide_eq_false. lia.
  - apply string_ltb_asym.
Qed.

Lemma pyval_le_trans (a b c : pyval) :
  pyval_lt b a = false → pyval_lt c b = false → pyval_lt c a = false.
Proof.
  destruct a as [x|s], b as [y|t], c as [z|u]; simpl; try done.
  - rewrite !bool_decide_eq_false. lia.
  - apply string_le_trans.
Qed.

Lemma pyval_lt_irrefl (a : pyval) : pyval_lt a a = false.
Proof.
  destruct (pyval_lt a a) eqn:H; [|done].
  pose proof (pyval_lt_asym _ _ H). congruence.
Qed.

Lemma StronglySorted_lookup_lt {A} (R : A → A → Prop) (l : list A)
    (i j : nat) (a b : A) :
  StronglySorted R l → (i < j)%nat → l !! i = Some a → l !! j = Some b → R a b.
Proof.
  intros Hs. revert i j. induction Hs as [|x l Hs IH Hx]; intros i j Hij Hi Hj.
  - done.
  - destruct j as [|j]; [lia|]. simpl in Hj. destruct i as [|i]; simpl in Hi.
    + simplify_eq. rewrite Forall_forall in Hx. apply Hx.
      by eapply list_elem_of_lookup_2.
    + eapply (IH i j); [lia|done|done].
Qed.

Lemma sort_keys_ok (attr : string) (xs : list MetaParticle) :
  (∀ m, m ∈ xs → ∃ k, getattr_meta attr m = inr k) →
  ∃ keyed,
    mapM (λ m, k ← getattr_meta attr m; mret (k, m)) xs = inr keyed ∧
    keyed.*2 = xs ∧
    Forall (λ km, getattr_meta attr km.2 = inr km.1) keyed.
Proof.
  induction xs as [|m xs IH]; intros Hall.
  - exists []. by repeat split.
  - destruct (Hall m) as [k Hk]; [left|].
    destruct IH as (keyed & Hkeyed & Hsnd & Hfa).
    { intros m' Hm'. apply Hall. by right. }
    exists ((k, m) :: keyed). split; [|split].
    + simpl. rewrite Hk. simpl. by rewrite Hkeyed.
    + csimpl. by rewrite Hsnd.
    + by constructor.
Qed.

Lemma filter_keyed (attr : string) (k : pyval)
    (keyed : list (pyval * MetaParticle)) :
  Forall (λ km, getattr_meta attr km.2 = inr km.1) keyed →
  filter (λ m, getattr_meta attr m = inr k) keyed.*2
  = (filter (λ km, km.1 = k) keyed).*2.
Proof.
  induction 1 as [|[k' m] keyed Hkm _ IH]; [done|].
  csimpl. rewrite !filter_cons. simpl in *. rewrite IH, Hkm.
  destruct (decide (k' = k)) as [->|Hne].
  - by rewrite decide_True.
  - rewrite decide_False; [done|]. by intros [= ?].
Qed.

Lemma sortby_cases (σ : store) self attr inplace :
  sortby self attr inplace σ =
  match mapM (λ m, k ← getattr_meta attr m; mret (k, m)) (σ !!! plist self) with
  | inl e => (σ, inl e)
  | inr keyed =>
      let ys := (sorted_by (λ a b, pyval_lt a.1 b.1) keyed).*2 in
      if inplace then (<[plist self := ys]> σ, inr None)
      else (<[fresh (dom σ) := ys]> σ,
            inr (Some (mkManager (fresh (dom σ)) false)))
  end.
Proof.
  unfold sortby. run. destruct (mapM _ _); [done|]. by destruct inplace.
Qed.

(** X11. [sortby], when every entry has the attribute: the sorted list
    holds the same entries; along it the attribute never decreases (in
    Python 2's order, numbers before strings); entries with the same
    attribute value keep their order.  In place, the receiver's list
    becomes the sorted list and [None] is returned; otherwise the
    receiver is left alone and a new manager holds the sorted list. *)
Theorem sortby_sorts (σ : store) (self : ParticleManager) (attr : string)
    (inplace : bool) :
  let xs := σ !!! plist self in
  (∀ m, m ∈ xs → ∃ k, getattr_meta attr m = inr k) →
  ∃ ys,
    sortby self attr inplace σ
    = (if inplace then (<[plist self := ys]> σ, inr None)
       else (<[fresh (dom σ) := ys]> σ,
             inr (Some (mkManager (fresh (dom σ)) false)))) ∧
    ys ≡ₚ xs ∧
    (∀ i j u v ku kv,
       (i < j)%nat → ys !! i = Some u → ys !! j = Some v →
       getattr_meta attr u = inr ku → getattr_meta attr v = inr kv →
       pyval_lt kv ku = false) ∧
    (∀ k, filter (λ m, getattr_meta attr m = inr k) ys
          = filter (λ m, getattr_meta attr m = inr k) xs).
Proof.
  intros xs Hall.
  destruct (sort_keys_ok attr xs Hall) as (keyed & Hkeyed & Hsnd & Hfa).
  set (lt := λ a b : pyval * MetaParticle, pyval_lt a.1 b.1).
  assert (Forall (λ km, getattr_meta attr km.2 = inr km.1) (sorted_by lt keyed))
    as Hfa'.
  { by rewrite sorted_by_permutation. }
  exists (sorted_by lt keyed).*2. split; [|split; [|split]].
  - rewrite sortby_cases. fold xs. by rewrite Hkeyed.
  - rewrite <-Hsnd. by rewrite sorted_by_permutation.
  - intros i j u v ku kv Hij Hu Hv Hku Hkv.
    rewrite list_lookup_fmap in Hu, Hv.
    destruct (sorted_by lt keyed !! i) as [[ku' u']|] eqn:Hi; [|done].
    destruct (sorted_by lt keyed !! j) as [[kv' v']|] eqn:Hj; [|done].
    simpl in Hu, Hv. simplify_eq.
    rewrite Forall_forall in Hfa'.
    pose proof (Hfa' _ (list_elem_of_lookup_2 _ _ _ Hi)) as Hu'.
    pose proof (Hfa' _ (list_elem_of_lookup_2 _ _ _ Hj)) as Hv'.
    simpl in Hu', Hv'.
    assert (ku' = ku) as -> by congruence.
    assert (kv' = kv) as -> by congruence.
    apply (StronglySorted_lookup_lt _ _ i j (ku, u) (kv, v)
             (sorted_by_sorted lt
                (λ a b, pyval_lt_asym a.1 b.1)
                (λ a b c, pyval_le_trans a.1 b.1 c.1) keyed) Hij Hi Hj).
  - intros k. rewrite <-Hsnd. rewrite !filter_keyed by done.
    f_equal. apply (sorted_by_stable lt).
    + intros a b. apply pyval_lt_asym.
    + intros a b c. apply pyval_le_trans.
    + intros a b c Ha Hb. unfold lt. by rewrite Ha, Hb.
    + intros a b Ha Hb. unfold lt. rewrite Ha, Hb. apply pyval_lt_irrefl.
Qed.

Lemma sortby_sorts_witness :
  ∃ ys,
    sortby pm_a "ptype" true sample_store
    = (<[plist pm_a := ys]> sample_store, inr None) ∧
    ys ≡ₚ sample_store !!! plist pm_a ∧
    (∀ i j u v ku kv,
       (i < j)%nat → ys !! i = Some u → ys !! j = Some v →
       getattr_meta "ptype" u = inr ku → getattr_meta "ptype" v = inr kv →
       pyval_lt kv ku = false) ∧
    (∀ k, filter (λ m, getattr_meta "ptype" m = inr k) ys
          = filter (λ m, getattr_meta "ptype" m = inr k)
              (sample_store !!! plist pm_a)).
Proof.
  apply (sortby_sorts sample_store pm_a "ptype" true).
  intros m _. by eexists.
Defined.

(** ** Reversing, mapping and popping *)

Lemma namemap_of_unique (xs : list MetaParticle) (nm : string) (k : nat) :
  NoDup (names_of xs) → names_of xs !! k = Some nm →
  namemap_of xs !! nm = Some k.
Proof.
  intros Hnd Hk. apply namemap_of_last. split; [done|].
  intros j Hj Hname. pose proof (NoDup_lookup _ _ _ _ Hnd Hk Hname). lia.
Qed.

(** X12. [reverse] is undone by a second [reverse], which gives back the
    very store; after one [reverse] of a manager with unique names, the
    name that was at position [k] is found by [idx] at position
    [len - 1 - k]. *)
Theorem reverse_moves_positions (σ : store) (self : ParticleManager)
    (xs : list MetaParticle) :
  σ !! plist self = Some xs →
  (_ ← Methods.reverse self; Methods.reverse self) σ = (σ, inr tt) ∧
  (NoDup (names_of xs) →
   ∀ k nm, names_of xs !! k = Some nm →
     (_ ← Methods.reverse self; Methods.idx self [nm]) σ
     = (<[plist self := reverse xs]> σ,
        inr (IdxOne (length xs - 1 - k)))).
Proof.
  intros Hxs. pose proof (read_allocated _ _ _ Hxs) as Hread. split.
  - unfold Methods.reverse. run. rewrite Hread, lookup_total_insert_eq.
    rewrite reverse_involutive, insert_insert_eq. by rewrite insert_id.
  - intros Hnd k nm Hk. unfold mbind at 1. unfold M_bind.
    unfold Methods.reverse at 1. run. rewrite Hread.
    rewrite idx_one_eq, lookup_total_insert_eq.
    rewrite (namemap_of_unique _ nm (length xs - 1 - k)); [done| |].
    + unfold names_of. by rewrite fmap_reverse, reverse_Permutation.
    + unfold names_of in *. rewrite fmap_reverse.
      pose proof (lookup_lt_Some _ _ _ Hk) as Hlt.
      pose proof (length_fmap name xs) as Hlen.
      rewrite reverse_lookup by lia.
      rewrite <-Hk. f_equal. lia.
Qed.

Lemma reverse_moves_positions_witness :
  (_ ← Methods.reverse pm_a; Methods.reverse pm_a) sample_store
  = (sample_store, inr tt).
Proof.
  apply (reverse_moves_positions sample_store pm_a
           [entry "a" circle; entry "x" circle; entry "b" dimer]).
  reflexivity.
Defined.

Lemma mapM_result_first_error {A B} (f : A → result B)
    (pre post : list A) (x : A) (e : exn) :
  Forall (λ y, ∃ z, f y = inr z) pre → f x = inl e →
  mapM f (pre ++ x :: post) = inl e.
Proof.
  induction 1 as [|y pre [z Hz] _ IH]; intros Hx; simpl.
  - by rewrite Hx.
  - rewrite Hz. simpl. by rewrite IH.
Qed.

Lemma mapM_result_all {A B} (f : A → result B) (l : list A) :
  (∀ x, x ∈ l → ∃ y, f x = inr y) →
  ∃ k, mapM f l = inr k ∧ Forall2 (λ x y, f x = inr y) l k.
Proof.
  induction l as [|x l IH]; intros Hall.
  - exists []. by split.
  - destruct (Hall x) as [y Hy]; [left|].
    destruct IH as [k [Hk Hfa]]; [intros z Hz; apply Hall; by right|].
    exists (y :: k). split; [|by constructor].
    simpl. rewrite Hy. simpl. by rewrite Hk.
Qed.

(** X13. [map] is all or nothing: when the function raises on an entry,
    the exception of the first such entry comes out and no entry has been
    replaced, not even those before it; when it raises on none, every
    entry is replaced by its image, in place and in order. *)
Theorem map_all_or_nothing (σ : store) (self : ParticleManager)
    (fcn : MetaParticle → result MetaParticle) :
  let xs := σ !!! plist self in
  (∀ pre x post e,
     xs = pre ++ x :: post →
     Forall (λ y, ∃ z, fcn y = inr z) pre → fcn x = inl e →
     Methods.map self fcn σ = (σ, inl e)) ∧
  ((∀ x, x ∈ xs → ∃ y, fcn x = inr y) →
   ∃ ys, Methods.map self fcn σ = (<[plist self := ys]> σ, inr tt) ∧
         Forall2 (λ x y, fcn x = inr y) xs ys ∧
         length ys = length xs).
Proof.
  intros xs. split.
  - intros pre x post e Hxs Hpre Hx. unfold Methods.map. run.
    fold xs. rewrite Hxs.
    by rewrite (mapM_result_first_error fcn pre post x e).
  - intros Hall. destruct (mapM_result_all fcn xs Hall) as [ys [Hys Hfa]].
    exists ys. split; [|split; [done|]].
    + unfold Methods.map. run. fold xs. by rewrite Hys.
    + symmetry. by eapply Forall2_length.
Qed.

(** X14. [pop] with a position does what [del] with that position does,
    the exception included. *)
Theorem pop_is_delitem (σ : store) (self : ParticleManager) (i : Z) :
  Methods.pop self i σ = __delitem__ self (KAtom (AInt i)) σ.
Proof.
  rewrite delitem_eq. unfold Methods.pop. run.
  by destruct (py_norm _ i).
Qed.

(** ** Types present and their counts *)

Lemma count_of_entries (typ : string) (xs : list MetaParticle) :
  count_of typ ((λ p, ptype (particle p)) <$> xs)
  = length (filter (λ m, ptype (particle m) = typ) xs).
Proof.
  unfold count_of. induction xs as [|x xs IH]; [done|].
  csimpl. rewrite !filter_cons.
  destruct (decide (ptype (particle x) = typ)); simpl; by rewrite IH.
Qed.

Lemma count_of_pos (typ : string) (tys : list string) :
  typ ∈ tys ↔ (0 < count_of typ tys)%nat.
Proof.
  unfold count_of. split.
  - intros Hin. assert (typ ∈ filter (λ t, t = typ) tys) as Hf
      by (by apply list_elem_of_filter).
    destruct (filter _ tys); [by apply not_elem_of_nil in Hf|simpl; lia].
  - intros Hpos. destruct (filter (λ t, t = typ) tys) as [|t ts] eqn:E;
      [simpl in Hpos; lia|].
    assert (t ∈ filter (λ t, t = typ) tys) as Ht by (rewrite E; left).
    by apply list_elem_of_filter in Ht as [-> Ht].
Qed.

(** X15. [ptypes] lists each type tag present once, and [ptype_count]
    maps a tag to the number of entries of that type: a positive count
    for a tag that is present, no key at all for one that is not. *)
Theorem ptype_count_counts (σ : store) (self : ParticleManager)
    (typ : string) :
  let xs := σ !!! plist self in
  let c := length (filter (λ m, ptype (particle m) = typ) xs) in
  ∃ d tys,
    ptype_count self σ = (σ, inr d) ∧
    ptypes self σ = (σ, inr tys) ∧
    NoDup tys ∧
    (typ ∈ tys ↔ (0 < c)%nat) ∧
    d !! typ = (if decide (c = 0%nat) then None else Some c).
Proof.
  intros xs c. exists (ptype_count_of xs), (ptypes_of xs).
  split; [done|]. split; [done|].
  set (tys := (λ p, ptype (particle p)) <$> xs).
  assert (c = count_of typ tys) as Hc
    by (unfold c, tys; by rewrite count_of_entries).
  split; [apply NoDup_remove_dups|]. split.
  - unfold ptypes_of. fold tys. rewrite elem_of_remove_dups, Hc.
    apply count_of_pos.
  - unfold ptype_count_of, ptypes_of. fold tys.
    destruct (decide (c = 0%nat)) as [Hz|Hnz].
    + apply not_elem_of_list_to_map_1.
      rewrite fmap_fst_pair, elem_of_remove_dups, count_of_pos. lia.
    + apply elem_of_list_to_map_1.
      * rewrite fmap_fst_pair. apply NoDup_remove_dups.
      * apply list_elem_of_fmap. exists typ. split; [by rewrite Hc|].
        apply elem_of_remove_dups, count_of_pos. lia.
Qed.

(** ** Generated names that are taken *)

(** X16. A generated name is tried once.  Without [fastnames], when the
    manager holds [k] entries of the particle's type and some entry is
    already named [type_k] (as after deleting an earlier entry of that
    type), [add] without a name raises the error for that name and adds
    nothing.  With [fastnames], the same happens when an entry is already
    named after the position. *)
Theorem add_generated_name_taken
    (ALLTYPES : gmap string (traitargs → Particle)) (σ : store)
    (self : ParticleManager) (arg : particle_arg) (p : Particle)
    (idx : option Z) (col : option pyval) :
  let xs := σ !!! plist self in
  let pos := if idx_falsy idx then Z.of_nat (length xs) else default 0 idx in
  let k := length (filter (λ m, ptype (particle m) = ptype p) xs) in
  let nm := if fastnames self then ptype p +:+ NAMESEP +:+ pretty pos
            else ptype p +:+ NAMESEP +:+ pretty k in
  resolve_particle ALLTYPES arg = inr p →
  nm ∈ names_of xs →
  ∃ j, add ALLTYPES self arg "" idx col σ = (σ, inl (ManagerError_named j nm)) ∧
       names_of xs !! j = Some nm.
Proof.
  intros xs pos k nm Hp Hin. rewrite add_eq, Hp. cbv zeta. fold xs pos.
  rewrite bool_decide_eq_true_2 by done.
  assert (auto_name (fastnames self) xs p pos = nm) as ->.
  { unfold auto_name, nm. destruct (fastnames self); [done|].
    by rewrite ptype_count_of_lookup, count_of_entries. }
  destruct (namemap_of_is_Some _ _ Hin) as [j Hj]. rewrite Hj.
  exists j. split; [done|]. by apply namemap_of_Some.
Qed.

Lemma add_generated_name_taken_witness :
  ∃ j,
    (_ ← add sample_types (mkManager 3%positive false)
           (ByType "circle" []) "" None None;
     _ ← add sample_types (mkManager 3%positive false)
           (ByType "circle" []) "" None None;
     _ ← __delitem__ (mkManager 3%positive false) (KAtom (AStr "circle_0"));
     add sample_types (mkManager 3%positive false) (ByType "circle" []) ""
       None None) sample_store
    = (<[3%positive := [mkMeta "circle_1" None (mkParticle "circle" [])]]>
         sample_store,
       inl (ManagerError_named j "circle_1")) ∧
    names_of [mkMeta "circle_1" None (mkParticle "circle" [])] !! j
    = Some "circle_1".
Proof.
  destruct (add_generated_name_taken sample_types
              (<[3%positive := [mkMeta "circle_1" None (mkParticle "circle" [])]]>
                 sample_store)
              (mkManager 3%positive false) (ByType "circle" [])
              (mkParticle "circle" []) None None) as [j [Hadd Hj]].
  - reflexivity.
  - apply (bool_decide_unpack _). vm_compute. exact I.
  - exists j. split; [|exact Hj].
    etrans; [|exact Hadd]. reflexivity.
Defined.

(** ** Slices *)

Lemma omap_lookup_seq {A} (xs : list A) (a m : nat) :
  omap (λ k, xs !! k) (seq a m) = take m (drop a xs).
Proof.
  revert a. induction m as [|m IH]; intros a; [done|].
  simpl. rewrite IH. destruct (xs !! a) as [x|] eqn:Hx.
  - by rewrite (drop_S _ _ _ Hx).
  - apply lookup_ge_None in Hx. rewrite !drop_ge by lia. by rewrite !take_nil.
Qed.

Lemma omap_reverse {A B} (f : A → option B) (l : list A) :
  omap f (reverse l) = reverse (omap f l).
Proof.
  induction l as [|a l IH]; [done|].
  rewrite reverse_cons, omap_app, IH. simpl.
  destruct (f a); [by rewrite reverse_cons|by rewrite app_nil_r].
Qed.

Lemma fmap_seqZ_forward (i m : nat) :
  (λ k, Z.to_nat (Z.of_nat i + k * 1)) <$> seqZ 0 (Z.of_nat m) = seq i m.
Proof.
  induction m as [|m IH]; [done|].
  rewrite seqZ_S, fmap_app, IH, seq_S. simpl. do 2 f_equal. lia.
Qed.

Lemma fmap_seqZ_backward (n : nat) :
  (λ k, Z.to_nat (Z.of_nat n - 1 + k * -1)) <$> seqZ 0 (Z.of_nat n)
  = reverse (seq 0 n).
Proof.
  induction n as [|n IH]; [done|].
  rewrite seq_S, reverse_snoc, <-IH.
  rewrite seqZ_cons by lia. csimpl. f_equal; [lia|].
  replace (Z.pred (Z.of_nat (S n))) with (Z.of_nat n) by lia.
  replace (Z.succ 0) with (1 + 0) by lia.
  rewrite <-fmap_add_seqZ, <-list_fmap_compose.
  apply list_fmap_ext. intros _ k _. simpl. lia.
Qed.

Lemma slice_bound_clamp (n d : nat) (b : option Z) :
  slice_bound (Z.of_nat n) 1 (Z.of_nat d) b = Z.of_nat (slice_clamp n d b).
Proof.
  unfold slice_bound, slice_clamp. destruct b as [b|]; [|done].
  cbv zeta. repeat case_bool_decide; lia.
Qed.

Lemma slice_indices_step_one (n : nat) (start stop : option Z) :
  slice_indices n start stop None
  = inr (seq (slice_clamp n 0 start)
           (slice_clamp n n stop - slice_clamp n 0 start)).
Proof.
  unfold slice_indices. cbv zeta. change (default 1 None) with 1.
  rewrite (bool_decide_eq_false_2 (1 = 0)) by lia.
  rewrite !(bool_decide_eq_false_2 (1 < 0)) by lia.
  pose proof (slice_bound_clamp n 0 start) as Hs.
  change (Z.of_nat 0) with 0 in Hs. rewrite Hs.
  rewrite (slice_bound_clamp n n stop).
  set (i := slice_clamp n 0 start). set (j := slice_clamp n n stop).
  f_equal. case_bool_decide as Hij.
  - replace ((Z.of_nat j - Z.of_nat i - 1) `div` 1 + 1)
      with (Z.of_nat (j - i)) by (rewrite Z.div_1_r; lia).
    apply fmap_seqZ_forward.
  - replace (j - i)%nat with 0%nat by lia. done.
Qed.

Lemma slice_indices_reversed (n : nat) :
  slice_indices n None None (Some (-1)) = inr (reverse (seq 0 n)).
Proof.
  unfold slice_indices. cbv zeta. change (default 1 (Some (-1))) with (-1).
  rewrite (bool_decide_eq_false_2 (-1 = 0)) by lia.
  rewrite !(bool_decide_eq_true_2 (-1 < 0)) by lia.
  unfold slice_bound. f_equal. case_bool_decide as Hn.
  - change (- (-1)) with 1. rewrite Z.div_1_r.
    replace (Z.of_nat n - 1 - -1 - 1 + 1) with (Z.of_nat n) by lia.
    apply fmap_seqZ_backward.
  - by replace n with 0%nat by lia.
Qed.

(** X17. A slice with step one: [p[start:stop]] is a new manager holding
    the entries from the start bound up to the stop bound, a negative
    bound counting from the end and both clamped to the manager; so
    [p[:]] is a copy holding all entries.  [p[::-1]] is a new manager
    holding the entries in reverse order. *)
Theorem getitem_slice (σ : store) (self : ParticleManager)
    (start stop : option Z) :
  let xs := σ !!! plist self in
  let i := slice_clamp (length xs) 0 start in
  let j := slice_clamp (length xs) (length xs) stop in
  __getitem__ self (KAtom (ASlice start stop None)) σ
  = (<[fresh (dom σ) := drop i (take j xs)]> σ,
     inr (mkManager (fresh (dom σ)) (fastnames self))) ∧
  __getitem__ self (KAtom (ASlice None None None)) σ
  = (<[fresh (dom σ) := xs]> σ,
     inr (mkManager (fresh (dom σ)) (fastnames self))) ∧
  __getitem__ self (KAtom (ASlice None None (Some (-1)))) σ
  = (<[fresh (dom σ) := reverse xs]> σ,
     inr (mkManager (fresh (dom σ)) (fastnames self))).
Proof.
  intros xs i j.
  assert (∀ a b, __getitem__ self (KAtom (ASlice a b None)) σ
          = (<[fresh (dom σ) :=
                 drop (slice_clamp (length xs) 0 a)
                   (take (slice_clamp (length xs) (length xs) b) xs)]> σ,
             inr (mkManager (fresh (dom σ)) (fastnames self)))) as Hstep.
  { intros a b. rewrite getitem_eq, getitem_plout_atom. fold xs.
    cbn [_unmask_index mbind result_bind list_subscript].
    rewrite slice_indices_step_one.
    cbn [mbind result_bind mret result_ret].
    rewrite omap_lookup_seq, take_drop_commute.
    set (i' := slice_clamp (length xs) 0 a).
    set (j' := slice_clamp (length xs) (length xs) b).
    destruct (decide (i' ≤ j')%nat).
    - by replace (i' + (j' - i'))%nat with j' by lia.
    - replace (i' + (j' - i'))%nat with i' by lia.
      rewrite !drop_ge; [done| |]; rewrite length_take; lia. }
  split; [apply Hstep|]. split.
  - rewrite Hstep. simpl. by rewrite firstn_all.
  - rewrite getitem_eq, getitem_plout_atom. fold xs.
    cbn [_unmask_index mbind result_bind list_subscript].
    rewrite slice_indices_reversed.
    cbn [mbind result_bind mret result_ret].
    rewrite omap_reverse, omap_lookup_seq. simpl.
    by rewrite firstn_all.
Qed.

(** ** Column output *)

Lemma string_length_app (s t : string) :
  String.length (s +:+ t) = (String.length s + String.length t)%nat.
Proof. induction s as [|c s IH]; [done|]. simpl. by rewrite IH. Qed.

Lemma length_spaces (n : nat) : String.length (spaces n) = n.
Proof.
  induction n as [|n IH]; [done|].
  change (spaces (S n)) with (" " +:+ spaces n).
  by rewrite string_length_app, IH.
Qed.

Lemma spaces_app (a b : nat) : spaces a +:+ spaces b = spaces (a + b).
Proof.
  induction a as [|a IH]; [done|].
  change (spaces (S a + b)) with (" " +:+ spaces (a + b)).
  change (spaces (S a)) with (" " +:+ spaces a).
  rewrite <-IH. done.
Qed.

Lemma string_app_nil_r (s : string) : s +:+ "" = s.
Proof.
  induction s as [|c s IH]; [done|].
  change (String c s +:+ "") with (String c (s +:+ "")). by rewrite IH.
Qed.

Lemma center_left_le (marg width : nat) :
  (marg / 2 + Nat.land (Nat.land marg width) 1 ≤ marg)%nat.
Proof.
  assert (Nat.land (Nat.land marg width) 1 ≤ 1)%nat as Hbit.
  { change 1%nat with (Nat.ones 1) at 1. rewrite Nat.land_ones.
    pose proof (Nat.mod_upper_bound (Nat.land marg width) (2 ^ 1)) as H.
    simpl in H. simpl. lia. }
  destruct marg as [|[|marg]].
  - rewrite Nat.land_0_l. simpl. lia.
  - simpl. lia.
  - generalize dependent (Nat.land (Nat.land (S (S marg)) width) 1).
    intros b Hb.
    pose proof (Nat.div_mod_eq (S (S marg)) 2) as Hdiv.
    pose proof (Nat.mod_upper_bound (S (S marg)) 2) as Hmod.
    lia.
Qed.

(** Each justification pads a cell to the width of its column. *)
Lemma just_fcn_length (align : string) (just : string → nat → string)
    (s : string) (width : nat) :
  just_fcn align = inr just →
  (String.length s ≤ width)%nat →
  String.length (just s width) = width.
Proof.
  unfold just_fcn. intros Hjust Hle.
  repeat case_bool_decide; simplify_eq.
  - unfold str_ljust. rewrite string_length_app, length_spaces. lia.
  - unfold str_rjust. rewrite string_length_app, length_spaces. lia.
  - unfold str_center. cbv zeta.
    rewrite !string_length_app, !length_spaces.
    pose proof (center_left_le (width - String.length s) width). lia.
Qed.

Lemma just_fcn_empty (align : string) (just : string → nat → string)
    (width : nat) :
  just_fcn align = inr just → just "" width = spaces width.
Proof.
  unfold just_fcn. intros Hjust.
  repeat case_bool_decide; simplify_eq.
  - unfold str_ljust. simpl. by rewrite Nat.sub_0_r.
  - unfold str_rjust. simpl. by rewrite Nat.sub_0_r, string_app_nil_r.
  - unfold str_center. cbv zeta. change (String.length "") with 0%nat.
    rewrite Nat.sub_0_r.
    set (left := (width / 2 + Nat.land (Nat.land width width) 1)%nat).
    transitivity (spaces left +:+ spaces (width - left)); [done|].
    rewrite spaces_app. f_equal.
    pose proof (center_left_le width width). lia.
Qed.

Lemma max_len_ge (col : list string) (s : string) :
  s ∈ col → (String.length s ≤ max_len col)%nat.
Proof.
  unfold max_len. induction col as [|c col IH]; [by intros ?%not_elem_of_nil|].
  intros [->|Hin]%elem_of_cons; simpl; [lia|].
  specialize (IH Hin). lia.
Qed.

(** X18. [format_particles] with an alignment among ['l'], ['r'], ['c']
    lays out one line per entry after a first line, and all lines are
    equally long: the three column widths and the padding twice.  The
    first line is there without a header too: it is then blank.  Any other
    alignment raises [KeyError]. *)
Theorem format_lines_shape (xs : list MetaParticle) (align : string)
    (padding : nat) (header : bool) :
  let widths := column_widths (format_rows xs header) in
  let total := (widths.1.1 + padding + widths.1.2 + padding + widths.2)%nat in
  if bool_decide (align ∈ ["l"; "r"; "c"])
  then ∃ lines,
         format_lines xs align padding header = inr lines ∧
         length lines = S (length xs) ∧
         Forall (λ ln, String.length ln = total) lines ∧
         (header = false → lines !! 0%nat = Some (spaces total))
  else format_lines xs align padding header = inl (KeyError align).
Proof.
  intros widths total. unfold format_lines.
  assert (align ∈ ["l"; "r"; "c"] ↔ align = "l" ∨ align = "r" ∨ align = "c")
    as Hmem.
  { rewrite !elem_of_cons. split; [|tauto].
    intros [?|[?|[?|?%not_elem_of_nil]]]; tauto. }
  case_bool_decide as Halign.
  - assert (∃ just, just_fcn align = inr just) as [just Hjust].
    { unfold just_fcn. repeat case_bool_decide; eauto. tauto. }
    rewrite Hjust. cbn [mbind result_bind mret result_ret].
    fold widths. eexists. split; [done|]. split; [|split].
    + rewrite length_fmap. unfold format_rows, enumerate.
      cbn [length]. by rewrite length_fmap, length_imap.
    + apply Forall_fmap, Forall_forall. intros row Hrow.
      unfold compose, join3. cbn [fst snd].
      rewrite !string_length_app, length_spaces.
      rewrite !(just_fcn_length align just) by
        (try done; apply max_len_ge, list_elem_of_fmap; by exists row).
      unfold total, widths, column_widths. cbn [fst snd]. lia.
    + intros ->. unfold format_rows. cbn [fmap list_fmap lookup list_lookup].
      f_equal. unfold join3. cbn [fst snd].
      rewrite !(just_fcn_empty align just) by done.
      rewrite !spaces_app. unfold total. f_equal. lia.
  - unfold just_fcn. repeat case_bool_decide; try done; tauto.
Qed.

(** ** Attribute arrays as masks *)

Lemma mapM_result_inr_inv {A B} (f : A → result B) (l : list A) (k : list B) :
  mapM f l = inr k → Forall2 (λ x y, f x = inr y) l k.
Proof.
  revert k. induction l as [|x l IH]; intros k; simpl.
  - intros [= <-]. constructor.
  - destruct (f x) as [e|y] eqn:Hy; simpl; [done|].
    destruct (mapM f l) as [e|k'] eqn:Hk; simpl; [done|].
    intros [= <-]. constructor; [done|]. by apply IH.
Qed.

Lemma getattr_error (attr : string) (xs : list MetaParticle) (e : exn) :
  mapM (getattr_meta attr) xs = inl e → e = AttributeError attr.
Proof.
  induction xs as [|m xs IH]; [done|]. simpl.
  destruct (getattr_meta attr m) as [e'|k] eqn:Hk; simpl.
  - intros [= <-]. by eapply getattr_meta_error.
  - destruct (mapM _ xs) as [e'|ks]; simpl; [|done].
    intros [= <-]. by apply IH.
Qed.

(** X19. [__getattr__] gives one value per entry, in order, or raises
    [AttributeError] for the attribute (never for an empty manager, which
    answers any attribute with an empty array).  A mask obtained from
    that array by testing each value, as in [p[p.perims > 50]], selects
    exactly the entries whose attribute passes the test. *)
Theorem getattr_then_mask (σ : store) (self : ParticleManager)
    (attr : string) (test : pyval → bool) :
  let xs := σ !!! plist self in
  match __getattr__ self attr σ with
  | (σ', inr vals) =>
      σ' = σ ∧
      Forall2 (λ m v, getattr_meta attr m = inr v) xs vals ∧
      __getitem__ self (KArray ((λ v, NBool (test v)) <$> vals)) σ
      = (<[fresh (dom σ) :=
             filter (λ m, match getattr_meta attr m with
                          | inr v => test v
                          | inl _ => false
                          end = true) xs]> σ,
         inr (mkManager (fresh (dom σ)) (fastnames self)))
  | (σ', inl e) => σ' = σ ∧ e = AttributeError attr ∧ xs ≠ []
  end.
Proof.
  intros xs. unfold __getattr__. run. fold xs.
  destruct (mapM (getattr_meta attr) xs) as [e|vals] eqn:Hvals.
  - split; [done|]. split; [by eapply getattr_error|].
    intros Hnil. by rewrite Hnil in Hvals.
  - apply mapM_result_inr_inv in Hvals as Hfa.
    split; [done|]. split; [done|].
    set (t := λ m, match getattr_meta attr m with
                   | inr v => test v
                   | inl _ => false
                   end).
    assert ((λ v, NBool (test v)) <$> vals = (λ m, NBool (t m)) <$> xs) as ->.
    { clear Hvals. induction Hfa as [|m v xs' vals' Hmv _ IH]; [done|].
      csimpl. f_equal; [|exact IH]. unfold t. by rewrite Hmv. }
    rewrite getitem_eq. fold xs.
    rewrite getitem_mask_plout by (by rewrite length_fmap).
    assert (astype_bool ((λ m, NBool (t m)) <$> xs) = t <$> xs) as ->.
    { unfold astype_bool. by rewrite <-list_fmap_compose. }
    rewrite <-list_fmap_compose, filter_once_predicate.
    do 3 f_equal. apply list_filter_iff. intros m. simpl.
    fold (t m). by destruct (t m).
Qed.

(** ** Entry objects as keys *)

(** X20. An entry object used as a key stands for its name alone: reading
    or deleting through it does what reading or deleting through its name
    does, whatever particle and colour the object carries, also inside an
    iterable key. *)
Theorem entry_key_is_its_name (σ : store) (self : ParticleManager)
    (m : MetaParticle) (before after : list atom) :
  __getitem__ self (KAtom (AMeta m)) σ
  = __getitem__ self (KAtom (AStr (name m))) σ ∧
  __delitem__ self (KAtom (AMeta m)) σ
  = __delitem__ self (KAtom (AStr (name m))) σ ∧
  __getitem__ self (KIter (before ++ AMeta m :: after)) σ
  = __getitem__ self (KIter (before ++ AStr (name m) :: after)) σ ∧
  __delitem__ self (KIter (before ++ AMeta m :: after)) σ
  = __delitem__ self (KIter (before ++ AStr (name m) :: after)) σ.
Proof.
  assert (∀ {B} (f : atom → result B),
            f (AMeta m) = f (AStr (name m)) →
            mapM f (before ++ AMeta m :: after)
            = mapM f (before ++ AStr (name m) :: after)) as Hmap.
  { intros B f Hf. induction before as [|a before IH]; simpl.
    - by rewrite Hf.
    - by rewrite IH. }
  rewrite !getitem_eq, !delitem_eq. repeat split; try done.
  - simpl. by rewrite Hmap.
  - simpl. by rewrite Hmap.
Qed.

(** ** Positions named twice *)

Lemma Forall2_positions_elem (names : list string) (ps : list nat)
    (es : list MetaParticle) (p : nat) (nm : string) :
  NoDup names →
  Forall2 (λ p e, names !! p = Some (name e)) ps es →
  names !! p = Some nm →
  p ∈ ps ↔ nm ∈ names_of es.
Proof.
  intros Hnd Hfa Hp. induction Hfa as [|q e ps es Hq _ IH].
  - split; intros H; by inv H.
  - unfold names_of in *. csimpl. rewrite !elem_of_cons, IH. split.
    + intros [->|?]; [left; congruence|by right].
    + intros [->|?]; [left|by right].
      by eapply NoDup_lookup.
Qed.

Lemma Forall2_positions_NoDup (names : list string) (ps : list nat)
    (es : list MetaParticle) :
  NoDup names →
  Forall2 (λ p e, names !! p = Some (name e)) ps es →
  NoDup ps ↔ NoDup (names_of es).
Proof.
  intros Hnd Hfa. induction Hfa as [|q e ps es Hq Hfa IH].
  - split; constructor.
  - unfold names_of in *. csimpl. rewrite !NoDup_cons, IH.
    by rewrite (Forall2_positions_elem names ps es q (name e)).
Qed.

(** X21. Reading does not check names.  For a manager with unique names
    and an iterable key whose elements (integers, names, entries) each
    stand for a position, the manager returned has unique names exactly
    when the key resolves to pairwise different positions: a key that
    names a position twice gives a manager with a repeated name. *)
Theorem getitem_repeats_names (σ : store) (self : ParticleManager)
    (ks : list atom) (ps : list nat) :
  let xs := σ !!! plist self in
  NoDup (names_of xs) →
  mapM (spec_resolve_one xs) ks = Some ps →
  ∃ σ' r,
    __getitem__ self (KIter ks) σ = (σ', inr r) ∧
    length (σ' !!! plist r) = length ks ∧
    (NoDup (names_of (σ' !!! plist r)) ↔ NoDup ps).
Proof.
  intros xs Hnd Hres.
  destruct (getitem_plout_iter xs ks ps Hres) as [es [Hes Hfa]].
  rewrite getitem_eq. fold xs. rewrite Hes.
  do 2 eexists. split; [done|]. simpl. rewrite lookup_total_insert_eq.
  split.
  - apply mapM_Some in Hres.
    apply Forall2_length in Hres, Hfa. lia.
  - symmetry. apply (Forall2_positions_NoDup (names_of xs)); [done|].
    eapply Forall2_impl; [exact Hfa|]. simpl. intros p e Hp.
    unfold names_of. by rewrite list_lookup_fmap, Hp.
Qed.

Lemma getitem_repeats_names_witness :
  ∃ σ' r,
    __getitem__ pm_a (KIter [AInt 0; AStr "a"]) sample_store = (σ', inr r) ∧
    length (σ' !!! plist r) = 2%nat ∧
    (NoDup (names_of (σ' !!! plist r)) ↔ NoDup [0; 0]%nat).
Proof.
  apply (getitem_repeats_names sample_store pm_a [AInt 0; AStr "a"]
           [0; 0]%nat).
  - apply (bool_decide_unpack _). vm_compute. exact I.
  - reflexivity.
Defined.

(** ** Merging, then subtracting *)

Lemma filter_interleave {A} (P : A → Prop) `{!∀ x, Decision (P x)}
    (xs ys : list A) :
  Forall P xs → Forall (λ y, ¬ P y) ys →
  filter P (interleave xs ys) = xs.
Proof.
  intros Hxs. revert ys. induction Hxs as [|x xs Hx Hxs IH]; intros ys Hys.
  - simpl. apply filter_none. by apply Forall_forall.
  - destruct Hys as [|y ys Hy Hys]; simpl.
    + rewrite filter_cons_True by done. f_equal.
      apply filter_all. by apply Forall_forall.
    + rewrite filter_cons_True by done.
      rewrite filter_cons_False by done. f_equal. by apply IH.
Qed.

(** X22. Subtracting what was merged in gives back the first operand's
    entries: for two managers without a common name, merging them (one
    after the other or alternating) and subtracting the second from the
    result leaves exactly the entries of the first, in their order. *)
Theorem merge_then_subtract (σ : store) (a b : ParticleManager)
    (xb : list MetaParticle) (alternate : bool) :
  let xa := σ !!! plist a in
  σ !! plist b = Some xb →
  (∀ nm, nm ∈ names_of xa → nm ∉ names_of xb) →
  ∃ σ' r,
    (ab ← concat_particles a b alternate false; subtract_particles ab b) σ
    = (σ', inr r) ∧
    σ' !!! plist r = xa ∧
    σ' !! plist b = Some xb.
Proof.
  intros xa Hb Hdis. pose proof (read_allocated _ _ _ Hb) as Hrb.
  unfold mbind at 1. unfold M_bind.
  rewrite concat_particles_eq by (by eexists). fold xa. rewrite Hrb. cbv zeta.
  pose proof Hdis as Hnil. apply shared_names_nil in Hnil. rewrite Hnil.
  rewrite bool_decide_eq_false_2 by (intros [? _]; done).
  rewrite not_shared_nil.
  set (pout := if alternate then alternate_particles xa xb else xa ++ xb).
  set (σ2 := <[fresh (dom (<[fresh (dom σ) := xa]> σ)) := pout]>
               (<[fresh (dom σ) := xa]> σ)).
  assert (σ2 !! plist b = Some xb) as Hb2.
  { unfold σ2. rewrite alloc_twice_frame by (by eexists). done. }
  rewrite subtract_particles_eq by (by eexists).
  cbn [plist fastnames]. rewrite (read_allocated _ _ _ Hb2).
  assert (σ2 !!! fresh (dom (<[fresh (dom σ) := xa]> σ)) = pout) as ->
    by apply lookup_total_insert_eq.
  do 2 eexists. split; [done|]. cbn [plist].
  rewrite lookup_total_insert_eq, not_shared_filter.
  split.
  - assert (Forall (λ p, name p ∉ names_of xb) xa) as Hxa.
    { apply Forall_forall. intros p Hp. apply Hdis.
      unfold names_of. apply list_elem_of_fmap. by exists p. }
    assert (Forall (λ p, ¬ (name p ∉ names_of xb)) xb) as Hxb.
    { apply Forall_forall. intros p Hp Hn. apply Hn.
      unfold names_of. apply list_elem_of_fmap. by exists p. }
    unfold pout. destruct alternate.
    + rewrite alternate_particles_interleave.
      by apply filter_interleave.
    + rewrite filter_app. rewrite (filter_all _ xa) by (by apply Forall_forall).
      rewrite (filter_none _ xb) by (by apply Forall_forall).
      by rewrite app_nil_r.
  - rewrite alloc_frame by (by eexists). done.
Qed.

Lemma merge_then_subtract_witness :
  ∃ σ' r,
    (ab ← concat_particles pm_a pm_b true false;
     subtract_particles ab pm_b) disjoint_store
    = (σ', inr r) ∧
    σ' !!! plist r = disjoint_store !!! plist pm_a ∧
    σ' !! plist pm_b = Some [entry "y" dimer].
Proof.
  apply (merge_then_subtract disjoint_store pm_a pm_b [entry "y" dimer] true).
  - reflexivity.
  - apply shared_names_nil. reflexivity.
Defined.

(** ** Deleting several entries by name *)

Lemma unmask_names (xs : list MetaParticle) (nms : list string) :
  (∀ nm, nm ∈ nms → nm ∈ names_of xs) →
  ∃ ks, mapM (_unmask_index (namemap_of xs)) (AStr <$> nms)
        = inr ((λ k, IInt (Z.of_nat k)) <$> ks) ∧
        Forall2 (λ nm k, namemap_of xs !! nm = Some k) nms ks.
Proof.
  intros Hall.
  assert (∃ ks, Forall2 (λ nm k, namemap_of xs !! nm = Some k) nms ks)
    as [ks Hfa].
  { induction nms as [|nm nms IH]; [by exists []|].
    destruct IH as [ks Hfa]; [intros n Hn; apply Hall; by right|].
    destruct (namemap_of_is_Some xs nm) as [k Hk]; [apply Hall; left|].
    exists (k :: ks). by constructor. }
  exists ks. split; [|done].
  apply mapM_result_inr, Forall2_fmap.
  eapply Forall2_impl; [exact Hfa|].
  intros nm k Hk. simpl. unfold dict_get. by rewrite Hk.
Qed.

(** X23. Deleting through an iterable of names.  When every name is the
    name of some entry of a manager with unique names, exactly the
    entries so named are removed, the others keeping their order;
    otherwise the first name no entry has raises [KeyError] and nothing
    is deleted. *)
Theorem delitem_iterable_of_names (σ : store) (self : ParticleManager)
    (nms : list string) :
  let xs := σ !!! plist self in
  (NoDup (names_of xs) →
   (∀ nm, nm ∈ nms → nm ∈ names_of xs) →
   __delitem__ self (KIter (AStr <$> nms)) σ
   = (<[plist self := filter (λ p, name p ∉ nms) xs]> σ, inr tt)) ∧
  (∀ found nm rest,
     nms = found ++ nm :: rest →
     (∀ n, n ∈ found → n ∈ names_of xs) →
     nm ∉ names_of xs →
     __delitem__ self (KIter (AStr <$> nms)) σ = (σ, inl (KeyError nm))).
Proof.
  intros xs. split.
  - intros Hnd Hall. rewrite delitem_eq. fold xs.
    destruct (unmask_names xs nms Hall) as [ks [Hks Hfa]].
    unfold delitem_plist. cbv zeta. rewrite Hks. cbn [mbind result_bind].
    set (flags := (λ e, bool_decide (name e ∈ nms)) <$> xs).
    assert (filter (λ idx, in_to_remove idx
                             ((λ k, IInt (Z.of_nat k)) <$> ks) = false)
              (seq 0 (length xs)) = unflagged flags) as ->.
    { unfold unflagged, flags. rewrite length_fmap.
      apply filter_ext_in. intros p Hp%elem_of_seq.
      destruct (lookup_lt_is_Some_2 xs p) as [e He]; [lia|].
      rewrite list_lookup_fmap, He. simpl.
      unfold in_to_remove. rewrite bool_decide_eq_false.
      assert (IInt (Z.of_nat p) ∈ (λ k, IInt (Z.of_nat k)) <$> ks
              ↔ name e ∈ nms) as ->.
      { rewrite list_elem_of_fmap. split.
        - intros [k [[= Hk] Hin]]. apply Nat2Z.inj in Hk. subst k.
          apply list_elem_of_lookup in Hin as [i Hi].
          destruct (Forall2_lookup_r _ _ _ _ _ Hfa Hi) as [nm [Hnm Hmap]].
          apply namemap_of_Some in Hmap. unfold names_of in Hmap.
          rewrite list_lookup_fmap, He in Hmap. simpl in Hmap.
          simplify_eq. by eapply list_elem_of_lookup_2.
        - intros Hin. apply list_elem_of_lookup in Hin as [i Hi].
          destruct (Forall2_lookup_l _ _ _ _ _ Hfa Hi) as [k [Hk Hmap]].
          exists k. split; [|by eapply list_elem_of_lookup_2].
          apply namemap_of_Some in Hmap. do 2 f_equal.
          eapply (NoDup_lookup (names_of xs)); [done| |exact Hmap].
          unfold names_of. by rewrite list_lookup_fmap, He. }
      split.
      - intros Hn. f_equal. by apply bool_decide_eq_false.
      - intros [= Hb]. by apply bool_decide_eq_false in Hb. }
    destruct (mapM_getitem_positions xs (unflagged flags)) as [es [-> Hes]].
    { eapply Forall_impl; [apply flags_positions_lt|].
      simpl. intros p. unfold flags. rewrite length_fmap. lia. }
    do 3 f_equal.
    assert (es = filter_once xs flags) as ->.
    { eapply Forall2_lookup_functional; [exact Hes|].
      apply filter_once_positions. unfold flags. by rewrite length_fmap. }
    unfold flags. rewrite filter_once_predicate.
    apply list_filter_iff. intros e. by rewrite bool_decide_eq_false.
  - intros found nm rest -> Hfound Hnm. rewrite delitem_eq. fold xs.
    cbn [delitem_plist]. rewrite fmap_app, fmap_cons.
    rewrite (mapM_result_first_error _ _ _ _ (KeyError nm)); [done| |].
    + apply Forall_fmap, Forall_forall. intros n Hn. simpl.
      destruct (namemap_of_is_Some xs n (Hfound n Hn)) as [k Hk].
      exists (IInt (Z.of_nat k)). unfold dict_get. by rewrite Hk.
    + simpl. unfold dict_get. apply namemap_of_None in Hnm. by rewrite Hnm.
Qed.

Lemma delitem_iterable_of_names_witness :
  __delitem__ pm_a (KIter (AStr <$> ["b"; "a"])) sample_store
  = (<[plist pm_a := filter (λ p, name p ∉ ["b"; "a"])
                       (sample_store !!! plist pm_a)]> sample_store, inr tt).
Proof.
  apply (delitem_iterable_of_names sample_store pm_a ["b"; "a"]).
  - apply (bool_decide_unpack _). vm_compute. exact I.
  - apply Forall_forall. apply (bool_decide_unpack _). vm_compute. exact I.
Defined.
